(** * tachibk-converter: schema scanner and container framing

    A shallow embedding of [tachibk-converter.py].

    - [Re]: the fragment of Python's [re] module the script relies on
      (backtracking matcher with priorities, named groups, [^] under
      [re.MULTILINE], negative lookahead, [finditer]).
    - [Scanner]: [PROTONUMBER_RE], [CLASS_RE], [DATA_TYPES] and the text
      processing of [parse_model].
    - [Codec]: [read_backup], [parse_backup], [write_json], [parse_json],
      [write_backup] and the [__main__] block over an explicit file store.
    - [Fetcher]: [fetch_schema] over decoded JSON listings.

    Text is a sequence of code points below 256 (the type [ascii] read as
    Latin-1): the character classes [\s], [\w] and [\d] classify each of
    these code points as Python's [re] does on a [str] pattern. Code points
    from 256 on are outside the model. *)

From Stdlib Require Import Ascii String List Bool Arith ZArith Lia DecimalString.
From stdpp Require Import base option list gmap strings.

Import ListNotations.
Local Open Scope string_scope.
Local Open Scope list_scope.

(* ===================================================================== *)
(** ** Python's [re], as far as the script uses it                        *)
(* ===================================================================== *)

Module Re.

(** Character classes. *)
Definition code (c : ascii) : nat := nat_of_ascii c.

Definition in_range (lo hi : nat) (c : ascii) : bool :=
  (lo <=? code c)%nat && (code c <=? hi)%nat.

(** [\d] *)
Definition is_digit (c : ascii) : bool := in_range 48 57 c.

(** [\w]: the underscore and what [str.isalnum] accepts: the ASCII letters
    and digits and, above 127, the ordinal indicators, the micro sign, the
    superscript digits, the vulgar fractions and the accented letters. *)
Definition is_word (c : ascii) : bool :=
  in_range 97 122 c || in_range 65 90 c || is_digit c || (code c =? 95)%nat ||
  (code c =? 170)%nat || in_range 178 179 c || (code c =? 181)%nat ||
  in_range 185 186 c || in_range 188 190 c ||
  in_range 192 214 c || in_range 216 246 c || in_range 248 255 c.

(** [\s]: tab, newline, vertical tab, form feed, carriage return, the four
    separators 0x1c..0x1f, the space, and above 127 the next-line control
    0x85 and the no-break space 0xa0. *)
Definition is_space (c : ascii) : bool :=
  in_range 9 13 c || in_range 28 31 c || (code c =? 32)%nat ||
  (code c =? 133)%nat || (code c =? 160)%nat.

Definition is_char (a c : ascii) : bool := Ascii.eqb a c.

Definition is_newline (c : ascii) : bool := (code c =? 10)%nat.

(** Pattern syntax. [Group] is a capturing group; a named group carries its
    name, an unnamed one its number written as a string. *)
Inductive regex : Type :=
| Eps
| Class (p : ascii -> bool)
| Bol
| Seq (r1 r2 : regex)
| Alt (r1 r2 : regex)
| Star (r : regex)
| NegLookahead (r : regex)
| Group (name : string) (r : regex).

(** [r+], [r?] and a literal string. *)
Definition Plus (r : regex) : regex := Seq r (Star r).
Definition Opt (r : regex) : regex := Alt r Eps.

Fixpoint Chars (l : list ascii) : regex :=
  match l with
  | [] => Eps
  | c :: l' => Seq (Class (is_char c)) (Chars l')
  end.

Definition Lit (s : string) : regex := Chars (list_ascii_of_string s).

(** Matcher state: the text left of the cursor (nearest character first),
    the text right of it, and the spans captured so far. *)
Definition span : Type := nat * nat.

Record st : Type := St {
  before : list ascii;
  after : list ascii;
  caps : list (string * span)
}.

Definition pos (s : st) : nat := length (before s).

Definition text_of (s : st) : list ascii := rev (before s) ++ after s.

Fixpoint lookup_cap (name : string) (l : list (string * span)) : option span :=
  match l with
  | [] => None
  | (n, sp) :: l' => if String.eqb n name then Some sp else lookup_cap name l'
  end.

Definition set_cap (name : string) (sp : span) (s : st) : st :=
  St (before s) (after s) ((name, sp) :: caps s).

Definition step (c : ascii) (rest : list ascii) (s : st) : st :=
  St (c :: before s) rest (caps s).

(** Greedy repetition of [body]: one more iteration is tried first, and an
    iteration has to consume input; when that fails the continuation is
    run on the current state. *)
Fixpoint star_loop (body : st -> (st -> option st) -> option st)
    (k : st -> option st) (fuel : nat) (s : st) {struct fuel} : option st :=
  match fuel with
  | O => k s
  | S fuel' =>
      match body s (fun s1 =>
              if (length (after s1) <? length (after s))%nat
              then star_loop body k fuel' s1 else None) with
      | Some res => Some res
      | None => k s
      end
  end.

(** Backtracking matcher in continuation-passing style: alternatives are
    tried left to right, [Star] is greedy, and a failed continuation makes
    the matcher fall back to the next choice. *)
Fixpoint exec (r : regex) (s : st) (k : st -> option st) {struct r} : option st :=
  match r with
  | Eps => k s
  | Class p =>
      match after s with
      | c :: rest => if p c then k (step c rest s) else None
      | [] => None
      end
  | Bol =>
      match before s with
      | [] => k s
      | c :: _ => if is_newline c then k s else None
      end
  | Seq r1 r2 => exec r1 s (fun s1 => exec r2 s1 k)
  | Alt r1 r2 =>
      match exec r1 s k with
      | Some res => Some res
      | None => exec r2 s k
      end
  | Star r1 => star_loop (exec r1) k (S (length (after s))) s
  | NegLookahead r1 =>
      match exec r1 s Some with
      | Some _ => None
      | None => k s
      end
  | Group name r1 =>
      exec r1 s (fun s1 => k (set_cap name (pos s, pos s1) s1))
  end.

(** Match objects. *)
Record Match : Type := MkMatch {
  m_string : list ascii;
  m_start : nat;
  m_end : nat;
  m_caps : list (string * span)
}.

Definition substring (a b : nat) (l : list ascii) : list ascii :=
  firstn (b - a) (skipn a l).

(** [m.group(name)]: [None] when the group did not take part in the match. *)
Definition group (m : Match) (name : string) : option string :=
  match lookup_cap name (m_caps m) with
  | Some (a, b) => Some (string_of_list_ascii (substring a b (m_string m)))
  | None => None
  end.

(** [re.finditer]: scan left to right; after a match the scan resumes at
    its end (one character further after an empty match). *)
Fixpoint scan (fuel : nat) (r : regex) (s : st) : list Match :=
  match fuel with
  | O => []
  | S fuel' =>
      match exec r (St (before s) (after s) []) Some with
      | Some s' =>
          MkMatch (text_of s) (pos s) (pos s') (caps s') ::
          (if (length (after s') <? length (after s))%nat
           then scan fuel' r (St (before s') (after s') [])
           else match after s with
                | [] => []
                | c :: rest => scan fuel' r (step c rest s)
                end)
      | None =>
          match after s with
          | [] => []
          | c :: rest => scan fuel' r (step c rest s)
          end
      end
  end.

Definition finditer (r : regex) (text : string) : list Match :=
  let l := list_ascii_of_string text in
  scan (S (length l)) r (St [] l []).

(** What a pattern can match, without the search order: [matches r s s']
    holds when [r] can take the matcher from [s] to [s']. Every result of
    [exec] is of this form. *)
Definition at_bol (s : st) : Prop :=
  before s = [] \/ exists c l, before s = c :: l /\ is_newline c = true.

Inductive matches : regex -> st -> st -> Prop :=
| M_Eps s : matches Eps s s
| M_Class p c rest s :
    after s = c :: rest -> p c = true -> matches (Class p) s (step c rest s)
| M_Bol s : at_bol s -> matches Bol s s
| M_Seq r1 r2 s s1 s2 :
    matches r1 s s1 -> matches r2 s1 s2 -> matches (Seq r1 r2) s s2
| M_AltL r1 r2 s s1 : matches r1 s s1 -> matches (Alt r1 r2) s s1
| M_AltR r1 r2 s s1 : matches r2 s s1 -> matches (Alt r1 r2) s s1
| M_Star0 r s : matches (Star r) s s
| M_StarS r s s1 s2 :
    matches r s s1 -> matches (Star r) s1 s2 -> matches (Star r) s s2
| M_Neg r s : exec r s Some = None -> matches (NegLookahead r) s s
| M_Group name r s s1 :
    matches r s s1 -> matches (Group name r) s (set_cap name (pos s, pos s1) s1).

(** Whether a pattern has a group called [name]. *)
Fixpoint mentions (name : string) (r : regex) : bool :=
  match r with
  | Eps | Class _ | Bol => false
  | Seq r1 r2 | Alt r1 r2 => mentions name r1 || mentions name r2
  | Star r1 | NegLookahead r1 => mentions name r1
  | Group n r1 => String.eqb n name || mentions name r1
  end.

(** [nullable r = false]: every match of [r] consumes input. *)
Fixpoint nullable (r : regex) : bool :=
  match r with
  | Eps | Bol | Star _ | NegLookahead _ => true
  | Class _ => false
  | Seq r1 r2 => nullable r1 && nullable r2
  | Alt r1 r2 => nullable r1 || nullable r2
  | Group _ r1 => nullable r1
  end.

(** [consuming name r]: every group of [r] called [name] has a body that
    consumes input. *)
Fixpoint consuming (name : string) (r : regex) : bool :=
  match r with
  | Eps | Class _ | Bol => true
  | Seq r1 r2 | Alt r1 r2 => consuming name r1 && consuming name r2
  | Star r1 | NegLookahead r1 => consuming name r1
  | Group n r1 =>
      (if String.eqb n name then negb (nullable r1) else true) && consuming name r1
  end.

End Re.

(* ===================================================================== *)
(** ** Python values and exceptions                                       *)
(* ===================================================================== *)

Inductive exn : Type :=
| TypeError
| ValueError
| OSError
| BadGzipFile
| ParseError
| DecodeError.

Inductive pyval : Type :=
| PyNone
| PyStr (s : string)
| PyInt (z : Z).

(** The interpreter's limit on the number of digits in a conversion between
    [int] and [str] ([sys.get_int_max_str_digits()], 4300 unless changed). *)
Definition int_max_str_digits : Z := 4300.

Definition over_limit (digits : string) : bool :=
  (int_max_str_digits <? Z.of_nat (String.length digits))%Z.

(** [int(s)] on a decimal literal: [ValueError] when [s] is not one, and
    when it has more digits than the limit (leading zeros count). *)
Definition py_int (s : string) : exn + Z :=
  match NilZero.uint_of_string s with
  | Some d => if over_limit s then inl ValueError else inr (Z.of_uint d)
  | None => inl ValueError
  end.

(** [str(n)] for [n >= 0]: [ValueError] when the decimal form of [n] has
    more digits than the limit. *)
Definition decimal (z : Z) : string := NilZero.string_of_int (Z.to_int z).

Definition py_str (z : Z) : exn + string :=
  if over_limit (decimal z) then inl ValueError else inr (decimal z).

(** [s.startswith(p)], [s.endswith(p)]. *)

Definition startswith (s p : string) : bool := String.prefix p s.

Definition endswith (s p : string) : bool :=
  (String.length p <=? String.length s)%nat &&
  String.eqb (String.substring (String.length s - String.length p) (String.length p) s) p.

(** Truth value of a group result, [a or b], and [str.format] of a value. *)
Definition truthy (o : option string) : bool :=
  match o with
  | Some s => negb (String.eqb s "")
  | None => false
  end.

Definition py_or (a b : option string) : option string :=
  if truthy a then a else b.

Definition of_group (o : option string) : pyval :=
  match o with
  | Some s => PyStr s
  | None => PyNone
  end.

Definition newline : string := String "010" "".

Definition format_val (v : pyval) : exn + string :=
  match v with
  | PyNone => inr "None"
  | PyStr s => inr s
  | PyInt z => py_str z
  end.

(* ===================================================================== *)
(** ** The schema scanner                                                 *)
(* ===================================================================== *)

Module Scanner.
Import Re.

Declare Scope re_scope.
Delimit Scope re_scope with re.
Bind Scope re_scope with regex.
Infix "+>" := Seq (at level 60, right associativity) : re_scope.
Infix "<|>" := Alt (at level 70, right associativity) : re_scope.

Definition d : regex := Class is_digit.
Definition w : regex := Class is_word.
Definition s : regex := Class is_space.
Definition rl : regex := Class (fun c => is_char "r" c || is_char "l" c).
Definition not_paren : regex :=
  Class (fun c => negb (is_char ")" c || is_char "(" c)).

(** [PROTONUMBER_RE] *)
Definition annotated : regex :=
  (Bol +> Star s +> NegLookahead (Lit "//" +> Star s) +>
   Lit "@ProtoNumber(" +> Group "number" (Plus d) +> Lit ")" +> Star s)%re.

Definition declared_type : regex :=
  (((Lit "List" <|> Lit "Set") +> Lit "<" +> Group "list" (Plus w) +> Lit ">")
   <|> Group "type" (Plus w))%re.

Definition optional_marker : regex :=
  Group "optional" (Lit "?" <|> Group "6" (Opt (Lit ":") +> Plus s +> Lit "="))%re.

Definition PROTONUMBER_RE : regex :=
  ((annotated <|> (Lit "data class " +> Plus w +> Lit "(") <|> Bol) +>
   Lit "va" +> rl +> Plus s +> Group "name" (Plus w) +> Lit ":" +> Plus s +>
   declared_type +> Opt optional_marker)%re.

(** [CLASS_RE] *)
Definition defs_body : regex :=
  Star (Plus not_paren <|>
        (Lit "(" +>
         Star (Plus not_paren <|> (Lit "(" +> Star not_paren +> Lit ")")) +>
         Lit ")"))%re.

Definition CLASS_RE : regex :=
  (Bol +> Opt (Lit "data ") +> Lit "class " +> Group "name" (Plus w) +>
   Lit "(" +> Group "defs" defs_body +> Lit ")")%re.

(** [DATA_TYPES] *)
Definition DATA_TYPES : gmap string string :=
  <["String" := "string"]> (
  <["Int" := "int32"]> (
  <["Long" := "int64"]> (
  <["Boolean" := "bool"]> (
  <["Float" := "float"]> (
  <["PreferenceValue" := "bytes"]> ∅))))).

(** [dict.get(key, default)]; a [None] key is never in [DATA_TYPES]. *)
Definition dict_get (dict : gmap string string) (key : option string)
    (default : option string) : option string :=
  match key with
  | Some k =>
      match dict !! k with
      | Some v => Some v
      | None => default
      end
  | None => default
  end.

(** The four arguments of the field line's [format] call. *)
Definition cardinality (list_ optional : option string) : string :=
  if truthy list_ then "repeated"
  else if truthy optional then "optional"
  else "required".

Definition wire_type (type_ list_ : option string) : option string :=
  dict_get DATA_TYPES type_ (dict_get DATA_TYPES list_ (py_or list_ type_)).

Definition tag_number (cls : string) (number : option string) : exn + pyval :=
  if negb (startswith cls "Broken") then
    inr (if truthy number then of_group number else PyInt 1)
  else
    match number with
    | Some n =>
        match py_int n with
        | inr z => inr (PyInt (z + 1))
        | inl e => inl e
        end
    | None => inl TypeError
    end.

Definition field_line (cls : string) (field : Match) : exn + string :=
  let repeated := cardinality (group field "list") (group field "optional") in
  let type_ := wire_type (group field "type") (group field "list") in
  let name := group field "name" in
  match tag_number cls (group field "number") with
  | inr number =>
      match format_val (of_group type_), format_val (of_group name),
            format_val number with
      | inr type_text, inr name_text, inr number_text =>
          inr ("  " +:+ repeated +:+ " " +:+ type_text +:+ " " +:+
               name_text +:+ " = " +:+ number_text +:+ ";")
      | inl e, _, _ | _, inl e, _ | _, _, inl e => inl e
      end
  | inl e => inl e
  end.

Fixpoint field_lines (cls : string) (fields : list Match) : exn + list string :=
  match fields with
  | [] => inr []
  | field :: rest =>
      match field_line cls field with
      | inr line =>
          match field_lines cls rest with
          | inr lines => inr (line :: lines)
          | inl e => inl e
          end
      | inl e => inl e
      end
  end.

(** The body of [parse_model] on the downloaded text [data]. The groups
    [name] and [defs] take part in every match of [CLASS_RE]. *)
Fixpoint class_messages (classes : list Match) : exn + list string :=
  match classes with
  | [] => inr []
  | name :: rest =>
      match group name "name", group name "defs" with
      | Some cls, Some defs =>
          match field_lines cls (finditer PROTONUMBER_RE defs) with
          | inr lines =>
              match class_messages rest with
              | inr more =>
                  inr (("message " +:+ cls +:+ " {") :: lines ++
                       (("}" +:+ newline) :: more))
              | inl e => inl e
              end
          | inl e => inl e
          end
      | _, _ => inl TypeError
      end
  end.

Definition parse_text (data : string) : exn + list string :=
  class_messages (finditer CLASS_RE data).

Section Fetch.
(** [requests.get(url).text] *)
Variable requests_get_text : string -> string.

Definition parse_model (model : string) : exn + list string :=
  parse_text (requests_get_text model).
End Fetch.

(** *** Vocabulary of the specification *)

(** The Type Mapper as the specification words it: the documented table of
    scalar types, and the name itself for every other name. *)
Definition documented_wire_type (t : string) : string :=
  if String.eqb t "String" then "string"
  else if String.eqb t "Int" then "int32"
  else if String.eqb t "Long" then "int64"
  else if String.eqb t "Boolean" then "bool"
  else if String.eqb t "Float" then "float"
  else if String.eqb t "PreferenceValue" then "bytes"
  else t.

(** Position [i] of [text] starts a tag-number annotation. *)
Fixpoint starts_with (p l : list ascii) : bool :=
  match p, l with
  | [], _ => true
  | a :: p', b :: l' => Ascii.eqb a b && starts_with p' l'
  | _ :: _, [] => false
  end.

Definition annotation_at (text : list ascii) (i : nat) : bool :=
  starts_with (list_ascii_of_string "@ProtoNumber(") (skipn i text).

(** Going back from a position to the start of its line, two adjacent
    slashes are met: the position is behind a line comment marker. *)
Fixpoint comment_before (rev_prefix : list ascii) : bool :=
  match rev_prefix with
  | [] => false
  | c :: l =>
      if is_newline c then false
      else match l with
           | c' :: _ => (is_char "/" c && is_char "/" c') || comment_before l
           | [] => false
           end
  end.

Definition commented_out (text : list ascii) (i : nat) : bool :=
  comment_before (rev (firstn i text)).

(** Every tag-number annotation of the class body is commented out. *)
Definition only_commented_annotations (defs : string) : bool :=
  let l := list_ascii_of_string defs in
  forallb (fun i => implb (annotation_at l i) (commented_out l i)) (seq 0 (length l)).

(** *** A field declaration as its text reads

    The amended claims on cardinality and type speak of the text of a
    declaration. [type_text field] is the text behind the name of a
    recognized field, the colon and the white space that follows it. *)

(** The number of leading characters of [l] in the class [p]. *)
Fixpoint run_length (p : ascii -> bool) (l : list ascii) : nat :=
  match l with
  | c :: l' => if p c then S (run_length p l') else O
  | [] => O
  end.

Definition type_text (field : Match) : list ascii :=
  match lookup_cap "name" (m_caps field) with
  | Some (_, b) =>
      let rest := skipn (S b) (m_string field) in
      skipn (run_length is_space rest) rest
  | None => []
  end.

Definition after_prefix (p : string) (t : list ascii) : option (list ascii) :=
  if starts_with (list_ascii_of_string p) t
  then Some (skipn (String.length p) t) else None.

(** The identifier [r] opens with, when a closing angle bracket follows. *)
Definition bracketed_identifier (r : list ascii) : option (list ascii) :=
  match run_length is_word r with
  | O => None
  | S _ =>
      match skipn (run_length is_word r) r with
      | c :: _ =>
          if is_char ">" c then Some (firstn (run_length is_word r) r) else None
      | [] => None
      end
  end.

(** [t] opens with [List<E>] or [Set<E>], where [E] is an identifier. *)
Definition collection_element (t : list ascii) : option (list ascii) :=
  match after_prefix "List<" t with
  | Some r => bracketed_identifier r
  | None =>
      match after_prefix "Set<" t with
      | Some r => bracketed_identifier r
      | None => None
      end
  end.

(** The identifier [t] opens with. *)
Definition leading_identifier (t : list ascii) : list ascii :=
  firstn (run_length is_word t) t.

(** [r] opens with white space and an equals sign. *)
Definition spaced_equals (r : list ascii) : bool :=
  match run_length is_space r with
  | O => false
  | S _ =>
      match skipn (run_length is_space r) r with
      | c :: _ => is_char "=" c
      | [] => false
      end
  end.

(** [t] opens with a question mark, or with white space and an equals
    sign, a colon allowed before the white space. *)
Definition optional_marked (t : list ascii) : bool :=
  match t with
  | [] => false
  | c :: r =>
      if is_char "?" c then true
      else spaced_equals (if is_char ":" c then r else t)
  end.

Definition declared_cardinality (t : list ascii) : string :=
  match collection_element t with
  | Some _ => "repeated"
  | None =>
      if optional_marked (skipn (run_length is_word t) t) then "optional"
      else "required"
  end.

Definition declared_type_name (t : list ascii) : string :=
  string_of_list_ascii
    match collection_element t with
    | Some e => e
    | None => leading_identifier t
    end.

(** The text of a declaration that opens a class body: [val] or [var],
    white space, the name, a colon, white space, and the rest [t]. *)
Definition declaration (c : ascii) (ws1 name ws2 t : list ascii) : list ascii :=
  list_ascii_of_string "va" ++ c :: ws1 ++ name ++ ":"%char :: ws2 ++ t.

Definition well_formed (c : ascii) (ws1 name ws2 t : list ascii) : Prop :=
  (c = "r"%char \/ c = "l"%char) /\
  ws1 <> [] /\ forallb is_space ws1 = true /\
  name <> [] /\ forallb is_word name = true /\
  ws2 <> [] /\ forallb is_space ws2 = true /\
  run_length is_word t <> O.

(** A class body whose only annotation is commented out, and a model file
    with one plain and one [Broken] class. *)
Definition commented_body : string :=
  "    // @ProtoNumber(5) val url: String," +:+ newline +:+
  "val title: Long".

Definition sample_model : string :=
  "@Serializable" +:+ newline +:+
  "data class BackupManga(" +:+ newline +:+
  "    @ProtoNumber(1) var source: Long," +:+ newline +:+
  "    // @ProtoNumber(2) var url: String," +:+ newline +:+
  "    @ProtoNumber(3) var title: String = f(1, g(2))," +:+ newline +:+
  "    @ProtoNumber(4) var genre: List<String> = emptyList()," +:+ newline +:+
  "    @ProtoNumber(5) var value: PreferenceValue?," +:+ newline +:+
  "    @ProtoNumber(6) var tags: Set<Long>?," +:+ newline +:+
  "    @ProtoNumber(7) var chapter: BackupChapter," +:+ newline +:+
  ") {" +:+ newline +:+
  "class BrokenBackupHistory(@ProtoNumber(0) var url: String)" +:+ newline.

(** *** Vocabulary for the scanner's own properties *)

(** The matcher state [n] characters further. *)
Definition advance (n : nat) (s0 : st) : st :=
  St (rev (firstn n (after s0)) ++ before s0) (skipn n (after s0)) (caps s0).

(** The continuation [k] refuses every state whose next character is in
    the class [p]: a greedy run of [p] followed by [k] cannot stop early. *)
Definition refuses (p : ascii -> bool) (k : st -> option st) : Prop :=
  forall s0 c rest, after s0 = c :: rest -> p c = true -> k s0 = None.

(** A class header with a parenthesis inside a string literal, and a
    declaration whose name has two letters above 127. *)
Definition literal_parenthesis : string :=
  "class A(val x: String = " +:+ String "034" "(" +:+ String "034" ")" +:+
  newline +:+ "val y: Int)".

Definition accented_name : string :=
  "val gr" +:+ String "246" (String "223" "e: Int").

(** Position [i] of [text] is the start of the text or follows a newline. *)
Definition line_start (text : list ascii) (i : nat) : bool :=
  match i with
  | O => true
  | S j =>
      match nth_error text j with
      | Some c => is_newline c
      | None => false
      end
  end.

(** Nesting depth of parentheses after reading [l] from depth [d]; [None]
    when a closing parenthesis has no partner. *)
Fixpoint depth_after (l : list ascii) (d : nat) : option nat :=
  match l with
  | [] => Some d
  | c :: l' =>
      if is_char "(" c then depth_after l' (S d)
      else if is_char ")" c then
        match d with
        | O => None
        | S d' => depth_after l' d'
        end
      else depth_after l' d
  end.

Definition balanced (text : string) : bool :=
  match depth_after (list_ascii_of_string text) 0 with
  | Some O => true
  | _ => false
  end.

(** [l] returns to the depth it starts from, whatever that depth is. *)
Definition level (l : list ascii) : Prop := forall d, depth_after l d = Some d.

(** A non-empty string of word characters. *)
Definition identifier (t : string) : Prop :=
  t <> "" /\ forallb is_word (list_ascii_of_string t) = true.

(** The annotation number of a field makes the shifted tag fail with [e]:
    there is none ([TypeError]), or it has more digits than [int] accepts,
    or its successor has more digits than [str] prints ([ValueError]). *)
Definition tag_fault (number : option string) (e : exn) : Prop :=
  match number with
  | None => e = TypeError
  | Some n =>
      e = ValueError /\
      (over_limit n = true \/
       exists z, py_int n = inr z /\ over_limit (decimal (z + 1)) = true)
  end.

(** [cls] is a class whose name begins with [Broken] and whose body has a
    recognized field with such a number. *)
Definition faulty_broken (cls : Match) (e : exn) : Prop :=
  exists name defs field,
    group cls "name" = Some name /\ group cls "defs" = Some defs /\
    startswith name "Broken" = true /\
    In field (finditer PROTONUMBER_RE defs) /\
    tag_fault (group field "number") e.

(** A number of 4300 nines, and one of 4301 digits. *)
Definition nines : string :=
  string_of_list_ascii (repeat "9"%char 4300).

Definition long_number : string := "1" +:+ nines.

End Scanner.

(* ===================================================================== *)
(** ** The container codec over an explicit file store                    *)
(* ===================================================================== *)

Module Codec.

(** The program is modelled from the point where [schema_pb2.Backup] has
    been imported: the functions below and the [__main__] block. The file
    store maps path strings to contents; [str(args.output)] and
    [str(args.input)] are taken as they come out of [pathlib]. *)

(** Python [bytes] and [str] file contents are both strings of bytes. *)
Abbreviation bytes := string.

(** What the process does to the outside: lines printed, the usage help,
    and every file opened, in order. *)
Inductive event : Type :=
| Print (line : string)
| PrintHelp
| Open (path mode : string)
| GzipOpen (path mode : string).

Record world : Type := World {
  files : gmap string bytes;
  trace : list event
}.

(** A call returns, ends the process through [exit(code)], or raises. *)
Inductive outcome (A : Type) : Type :=
| Return (a : A)
| Exit (code : Z)
| Raise (e : exn).
Arguments Return {A} a.
Arguments Exit {A} code.
Arguments Raise {A} e.

Definition M (A : Type) : Type := world -> outcome A * world.

Definition ret {A} (a : A) : M A := fun w => (Return a, w).

Definition bind {A B} (m : M A) (k : A -> M B) : M B :=
  fun w =>
    match m w with
    | (Return a, w') => k a w'
    | (Exit c, w') => (Exit c, w')
    | (Raise e, w') => (Raise e, w')
    end.

#[global] Instance M_ret : MRet M := @ret.
#[global] Instance M_bind : MBind M := fun A B k m => bind m k.

Definition raise {A} (e : exn) : M A := fun w => (Raise e, w).
Definition exit {A} (code : Z) : M A := fun w => (Exit code, w).

Definition emit (e : event) : M unit :=
  fun w => (Return tt, World (files w) (trace w ++ [e])).

Definition print (line : string) : M unit := emit (Print line).
Definition print_help : M unit := emit PrintHelp.

Definition lift {A} (r : exn + A) : M A :=
  match r with
  | inr a => ret a
  | inl e => raise e
  end.

(** [isinstance(e, cls)]: [BadGzipFile] derives from [OSError]. *)
Definition isinstance (e cls : exn) : bool :=
  match e, cls with
  | TypeError, TypeError | ValueError, ValueError | OSError, OSError
  | BadGzipFile, BadGzipFile | BadGzipFile, OSError
  | ParseError, ParseError | DecodeError, DecodeError => true
  | _, _ => false
  end.

(** [try: m except cls: handler] *)
Definition try_except {A} (m : M A) (cls : exn) (handler : M A) : M A :=
  fun w =>
    match m w with
    | (Raise e, w') => if isinstance e cls then handler w' else (Raise e, w')
    | other => other
    end.

(** The builtin [open]. The mode string is checked before the file system
    is touched: its characters come from [xrwa+tb] without repetition, text
    and binary exclude each other, and exactly one of create, read, write
    and append is named; anything else raises [ValueError]. *)
Inductive access : Type := Reading | Writing | Appending | Creating.

Definition has (c : ascii) (mode : string) : bool :=
  existsb (Ascii.eqb c) (list_ascii_of_string mode).

Fixpoint distinct (l : list ascii) : bool :=
  match l with
  | [] => true
  | c :: l' => negb (existsb (Ascii.eqb c) l') && distinct l'
  end.

Definition parse_mode (mode : string) : option access :=
  let cs := list_ascii_of_string mode in
  if negb (forallb (fun c => has c "xrwa+tb") cs && distinct cs) then None
  else if has "t" mode && has "b" mode then None
  else
    match has "x" mode, has "r" mode, has "w" mode, has "a" mode with
    | true, false, false, false => Some Creating
    | false, true, false, false => Some Reading
    | false, false, true, false => Some Writing
    | false, false, false, true => Some Appending
    | _, _, _, _ => None
    end.

Record file : Type := File { f_path : string; f_access : access; f_gzip : bool }.

(** The generated serializer ([schema_pb2.Backup] with
    [google.protobuf.json_format]) and [gzip] are collaborators of the
    script; each call may raise. [writable] tells at which paths opening a
    file for writing succeeds. *)
Class Runtime : Type := {
  Backup : Type;
  ParseFromString : bytes -> exn + Backup;
  SerializeToString : Backup -> exn + bytes;
  MessageToJson : Backup -> exn + string;
  Parse : string -> exn + Backup;
  compress : bytes -> bytes;
  decompress : bytes -> exn + bytes;
  writable : string -> bool
}.

(** The parsed command line. [args.input] is [None] when [--input] was not
    given; [str(None)] is the text [None]. *)
Record Args : Type := MkArgs {
  input : option string;
  output : string;
  fork : string
}.

(** The paths opened by a run of events, in order. *)
Fixpoint opened_paths (evs : list event) : list string :=
  match evs with
  | [] => []
  | Open path _ :: evs' | GzipOpen path _ :: evs' => path :: opened_paths evs'
  | _ :: evs' => opened_paths evs'
  end.

Section Program.
Context `{Runtime}.

Definition open_as (gz : bool) (path mode : string) : M file :=
  match parse_mode mode with
  | None => raise ValueError
  | Some a =>
      fun w =>
        let w1 := World (files w)
                    (trace w ++ [if gz then GzipOpen path mode else Open path mode]) in
        match a with
        | Reading =>
            match files w !! path with
            | Some _ => (Return (File path a gz), w1)
            | None => (Raise OSError, w1)
            end
        | Writing =>
            if writable path
            then (Return (File path a gz), World (<[path := ""]> (files w1)) (trace w1))
            else (Raise OSError, w1)
        | Appending =>
            if writable path
            then (Return (File path a gz),
                  World (<[path := default "" (files w !! path)]> (files w1)) (trace w1))
            else (Raise OSError, w1)
        | Creating =>
            match files w !! path with
            | None =>
                if writable path
                then (Return (File path a gz), World (<[path := ""]> (files w1)) (trace w1))
                else (Raise OSError, w1)
            | Some _ => (Raise OSError, w1)
            end
        end
  end.

(** [open(path, mode)] and [gzip.open(path, mode)] *)
Definition open_ : string -> string -> M file := open_as false.
Definition gzip_open : string -> string -> M file := open_as true.

(** [file.read()]: the whole content, decompressed for a gzip file. *)
Definition read (f : file) : M bytes :=
  match f_access f with
  | Reading =>
      fun w =>
        match files w !! f_path f with
        | Some content =>
            if f_gzip f then lift (decompress content) w else (Return content, w)
        | None => (Raise OSError, w)
        end
  | _ => raise OSError
  end.

(** [file.write(data)] followed by the end of the [with] block; a gzip
    file receives the compressed data. *)
Definition write (f : file) (data : bytes) : M unit :=
  match f_access f with
  | Reading => raise OSError
  | _ =>
      fun w =>
        let old := default "" (files w !! f_path f) in
        let new := if f_gzip f then compress data else data in
        (Return tt, World (<[f_path f := old +:+ new]> (files w)) (trace w))
  end.

Variable args : Args.

Definition str_input : string :=
  match input args with
  | Some p => p
  | None => "None"
  end.

Definition read_backup (input : string) : M bytes :=
  if endswith input ".tachibk" || endswith input ".proto.gz" then
    zip ← gzip_open input "rb";
    backup_data ← read zip;
    file ← open_ "extracted_tachibk" "wb";
    write file backup_data;;
    mret backup_data
  else
    try_except
      (file ← open_ "extracted_tachibk" "rb";
       read file)
      OSError
      (print "ERROR! No Backup to process.";;
       print_help;;
       exit 1).

Definition parse_backup (backup_data : bytes) : M Backup :=
  lift (ParseFromString backup_data).

Definition dquote : string := String (ascii_of_nat 34) "".

Definition write_json (message : Backup) : M unit :=
  file ← open_ (output args) "wt";
  text ← lift (MessageToJson message);
  write file text;;
  print ("Backup decoded to " +:+ dquote +:+ output args +:+ dquote).

Definition parse_json (input : string) : M bytes :=
  json_string ←
    try_except
      (file ← open_ input "b";
       read file)
      OSError
      (print "ERROR! Could not read the JSON file.";;
       exit 1);
  try_except
    (message ← lift (Parse json_string);
     lift (SerializeToString message))
    ParseError
    (print "The input JSON file is invalid.";;
     exit 1).

Definition write_backup (message : bytes) : M unit :=
  let output :=
    if String.eqb (output args) "output.json"
    then "encoded_backup.tachibk"
    else output args in
  compression ←
    (if endswith output ".proto.gz" || endswith output ".tachibk" then
       zip ← gzip_open output "wb";
       write zip message;;
       mret true
     else
       file ← open_ output "wb";
       write file message;;
       mret false);
  print ((if compression : bool then "C" else "Unc") +:+
         "ompressed backup written to " +:+ output).

Definition main : M unit :=
  let input := str_input in
  if endswith input ".json" then
    message ← parse_json input;
    write_backup message
  else
    backup_data ← read_backup input;
    message ← parse_backup backup_data;
    write_json message.

End Program.

(** *** Vocabulary of the specification *)

(** A path with one of the two compressed-container extensions. *)
Definition gz_ext (path : string) : bool :=
  endswith path ".tachibk" || endswith path ".proto.gz".

(** The file [write_backup] writes to: the value of its local [output]. *)
Definition effective_output (args : Args) : string :=
  if String.eqb (output args) "output.json" then "encoded_backup.tachibk"
  else output args.

(** A small runtime to run the program on concrete inputs: a message is
    its own serialization, JSON text has to open with a brace, compression
    prepends a two-letter header, and every path is writable. *)
Definition toy_runtime : Runtime := {|
  Backup := string;
  ParseFromString := fun b => inr b;
  SerializeToString := fun m => inr m;
  MessageToJson := fun m => inr ("{" +:+ m +:+ "}");
  Parse := fun t => if String.prefix "{" t then inr t else inl ParseError;
  compress := fun b => "GZ" +:+ b;
  decompress := fun b =>
    if String.prefix "GZ" b
    then inr (String.substring 2 (String.length b - 2) b)
    else inl BadGzipFile;
  writable := fun _ => true
|}.

(** The toy runtime with a serializer that rejects payloads opening with
    [bad] and cannot print any message as JSON. *)
Definition faulty_runtime : Runtime := {|
  Backup := string;
  ParseFromString := fun b =>
    if String.prefix "bad" b then inl DecodeError else inr b;
  SerializeToString := fun m => inr m;
  MessageToJson := fun _ => inl TypeError;
  Parse := fun t => if String.prefix "{" t then inr t else inl ParseError;
  compress := fun b => "GZ" +:+ b;
  decompress := fun b =>
    if String.prefix "GZ" b
    then inr (String.substring 2 (String.length b - 2) b)
    else inl BadGzipFile;
  writable := fun _ => true
|}.

End Codec.

(* ===================================================================== *)
(** ** The remote model fetcher                                           *)
(* ===================================================================== *)

Module Fetcher.

(** A decoded JSON document, as [response.json()] returns it. A number
    keeps its literal; an object keeps its members as written. *)
#[local] Unset Elimination Schemes.
Inductive json : Type :=
| JNull
| JBool (b : bool)
| JNum (literal : string)
| JStr (s : string)
| JArr (items : list json)
| JObj (members : list (string * json)).
#[local] Set Elimination Schemes.

(** What the fetcher can raise: [AttributeError] for [.get] on a value that
    is not a [dict], [TypeError] for a loop over a value that is not
    iterable, and whatever [requests.get(...).json()] raises. *)
Inductive fetch_error : Type :=
| AttributeError
| NotIterable
| RequestFailed.

(** [d.get(key)] of the [dict] built from the members: the last member of
    that name wins, a missing key gives [None]. *)
Fixpoint member (key : string) (members : list (string * json)) : option json :=
  match members with
  | [] => None
  | (k, v) :: rest =>
      match member key rest with
      | Some v' => Some v'
      | None => if String.eqb k key then Some v else None
      end
  end.

Definition get (entry : json) (key : string) : fetch_error + json :=
  match entry with
  | JObj members => inr (default JNull (member key members))
  | _ => inl AttributeError
  end.

(** The keys of the [dict], each once, in the order of first appearance. *)
Fixpoint keys (seen : list string) (members : list (string * json)) : list string :=
  match members with
  | [] => []
  | (k, _) :: rest =>
      if existsb (String.eqb k) seen then keys seen rest
      else k :: keys (k :: seen) rest
  end.

(** [for x in v]: the items of a list, the keys of a [dict], the
    characters of a string. *)
Definition iterate (v : json) : fetch_error + list json :=
  match v with
  | JArr items => inr items
  | JObj members => inr (map JStr (keys [] members))
  | JStr s => inr (map (fun c => JStr (String c "")) (list_ascii_of_string s))
  | JNull | JBool _ | JNum _ => inl NotIterable
  end.

(** [v == s] for a string [s]. *)
Definition is_str (v : json) (s : string) : bool :=
  match v with
  | JStr t => String.eqb t s
  | _ => false
  end.

Definition listing_url (fork : string) : string :=
  "https://api.github.com/repos/" +:+ fork +:+
  "/contents/app/src/main/java/eu/kanade/tachiyomi/data/backup/models".

Section Web.
(** [requests.get(url).json()]; the url is the value the caller read, and
    the same url gives the same answer during a run. *)
Variable get_json : json -> fetch_error + json.

(** The inner loop of [fetch_schema], over the listing of a directory. *)
Fixpoint sub_files (entries : list json) : fetch_error + list (json * json) :=
  match entries with
  | [] => inr []
  | sub_entry :: rest =>
      match get sub_entry "type" with
      | inl e => inl e
      | inr t =>
          if is_str t "file" then
            match get sub_entry "name", get sub_entry "download_url" with
            | inr n, inr u =>
                match sub_files rest with
                | inr files => inr ((n, u) :: files)
                | inl e => inl e
                end
            | inl e, _ | _, inl e => inl e
            end
          else sub_files rest
      end
  end.

(** The outer loop, over the listing of the models directory. *)
Fixpoint top_files (entries : list json) : fetch_error + list (json * json) :=
  match entries with
  | [] => inr []
  | entry :: rest =>
      match get entry "type" with
      | inl e => inl e
      | inr t =>
          if is_str t "file" then
            match get entry "name", get entry "download_url" with
            | inr n, inr u =>
                match top_files rest with
                | inr files => inr ((n, u) :: files)
                | inl e => inl e
                end
            | inl e, _ | _, inl e => inl e
            end
          else if is_str t "dir" then
            match get entry "url" with
            | inl e => inl e
            | inr url =>
                match get_json url with
                | inl e => inl e
                | inr sub =>
                    match iterate sub with
                    | inl e => inl e
                    | inr subs =>
                        match sub_files subs with
                        | inl e => inl e
                        | inr found =>
                            match top_files rest with
                            | inr files => inr (found ++ files)
                            | inl e => inl e
                            end
                        end
                    end
                end
            end
          else top_files rest
      end
  end.

Definition fetch_schema (fork : string) : fetch_error + list (json * json) :=
  match get_json (JStr (listing_url fork)) with
  | inl e => inl e
  | inr git =>
      match iterate git with
      | inl e => inl e
      | inr entries => top_files entries
      end
  end.

(** *** Vocabulary for the fetcher's properties *)

(** An entry of type [file] with its name and download url; the url of an
    entry of type [dir]. *)
Definition file_entry (entry : json) : option (json * json) :=
  match entry with
  | JObj members =>
      if is_str (default JNull (member "type" members)) "file"
      then Some (default JNull (member "name" members),
                 default JNull (member "download_url" members))
      else None
  | _ => None
  end.

Definition dir_entry (entry : json) : option json :=
  match entry with
  | JObj members =>
      if is_str (default JNull (member "type" members)) "dir"
      then Some (default JNull (member "url" members))
      else None
  | _ => None
  end.

(** [p] is a file of the listing [entries], or a file of the listing of one
    of its directories. *)
Definition listed (entries : list json) (p : json * json) : Prop :=
  (exists e, In e entries /\ file_entry e = Some p) \/
  (exists d url sub subs e,
     In d entries /\ dir_entry d = Some url /\
     get_json url = inr sub /\ iterate sub = inr subs /\
     In e subs /\ file_entry e = Some p).

End Web.

(** A listing with one file, one directory and one symbolic link; the
    directory holds one file and one directory of its own. *)
Definition entry (type name url download_url : string) : json :=
  JObj [("name", JStr name); ("type", JStr type); ("url", JStr url);
        ("download_url", JStr download_url)].

Definition sample_web (url : json) : fetch_error + json :=
  if is_str url (listing_url "mihonapp/mihon") then
    inr (JArr [entry "file" "Backup.kt" "u1" "d1";
               entry "dir" "preference" "u2" "";
               entry "symlink" "link" "u3" "d3"])
  else if is_str url "u2" then
    inr (JArr [entry "file" "PreferenceValue.kt" "u4" "d4";
               entry "dir" "deeper" "u5" ""])
  else inl RequestFailed.

(** The answer of the listing service when it refuses the request. *)
Definition refusing_web (url : json) : fetch_error + json :=
  inr (JObj [("message", JStr "API rate limit exceeded")]).

End Fetcher.

(* ===================================================================== *)
(** ** Facts about the matcher                                            *)
(* ===================================================================== *)

Module ReFacts.
Import Re.

(** *** The matcher finds only what the pattern allows *)

Lemma star_loop_sound body r1 k :
  (forall s k' res, body s k' = Some res ->
     exists s', matches r1 s s' /\ k' s' = Some res) ->
  forall fuel s res, star_loop body k fuel s = Some res ->
    exists s', matches (Star r1) s s' /\ k s' = Some res.
Proof.
  intros Hbody. induction fuel as [| fuel IHf]; intros s0 res H; simpl in H.
  - exists s0. split; [constructor | exact H].
  - match type of H with
    | match ?e with _ => _ end = _ => destruct e as [res1 |] eqn:E1
    end.
    + apply Hbody in E1 as (s1 & H1 & Hk).
      destruct (length (after s1) <? length (after s0))%nat; [| discriminate].
      apply IHf in Hk as (s2 & H2 & Hk).
      exists s2. split; [econstructor; eauto | congruence].
    + exists s0. split; [constructor | exact H].
Qed.

(** A result of [exec] went through a match of the pattern, and is what the
    continuation returned at the end of that match. *)
Lemma exec_sound r : forall s k res,
  exec r s k = Some res -> exists s', matches r s s' /\ k s' = Some res.
Proof.
  induction r as [| p | | r1 IH1 r2 IH2 | r1 IH1 r2 IH2 | r1 IH1 | r1 IH1 | name r1 IH1];
    intros s0 k res H.
  - exists s0. split; [constructor | exact H].
  - simpl in H. destruct (after s0) as [| c rest] eqn:Ha; [discriminate |].
    destruct (p c) eqn:Hp; [| discriminate].
    exists (step c rest s0). split; [by constructor | exact H].
  - simpl in H. exists s0. split; [| destruct (before s0) as [| c l]; [exact H |];
      destruct (is_newline c); [exact H | discriminate]].
    constructor. destruct (before s0) as [| c l] eqn:Hb; [by left |].
    destruct (is_newline c) eqn:Hn; [| discriminate]. right. by exists c, l.
  - simpl in H. apply IH1 in H as (s1 & H1 & H).
    apply IH2 in H as (s2 & H2 & H).
    exists s2. split; [econstructor; eauto | exact H].
  - simpl in H. destruct (exec r1 s0 k) as [res1 |] eqn:E1.
    + apply IH1 in E1 as (s1 & H1 & Hk). exists s1. split; [by apply M_AltL | congruence].
    + apply IH2 in H as (s1 & H1 & Hk). exists s1. split; [by apply M_AltR | exact Hk].
  - eapply star_loop_sound; [exact IH1 | exact H].
  - simpl in H. destruct (exec r1 s0 Some) eqn:E1; [discriminate |].
    exists s0. split; [by constructor | exact H].
  - simpl in H. apply IH1 in H as (s1 & H1 & Hk).
    eexists. split; [constructor; exact H1 | exact Hk].
Qed.


(** A match consumes a segment of the text and leaves the rest in place. *)
Lemma matches_segment r s s' :
  matches r s s' ->
  exists l, after s = l ++ after s' /\ before s' = rev l ++ before s.
Proof.
  induction 1 as [s | p c rest s Ha Hp | s Hb | r1 r2 s s1 s2 _ IH1 _ IH2
                 | r1 r2 s s1 _ IH | r1 r2 s s1 _ IH | r s
                 | r s s1 s2 _ IH1 _ IH2 | r s Hn | name r s s1 _ IH].
  - by exists [].
  - exists [c]. by rewrite Ha.
  - by exists [].
  - destruct IH1 as (l1 & Ha1 & Hb1), IH2 as (l2 & Ha2 & Hb2).
    exists (l1 ++ l2). rewrite Ha1, Ha2, Hb2, Hb1, rev_app_distr, <- !app_assoc. done.
  - exact IH.
  - exact IH.
  - by exists [].
  - destruct IH1 as (l1 & Ha1 & Hb1), IH2 as (l2 & Ha2 & Hb2).
    exists (l1 ++ l2). rewrite Ha1, Ha2, Hb2, Hb1, rev_app_distr, <- !app_assoc. done.
  - by exists [].
  - exact IH.
Qed.

Lemma matches_text r s s' : matches r s s' -> text_of s' = text_of s.
Proof.
  intros H. apply matches_segment in H as (l & Ha & Hb).
  unfold text_of. rewrite Ha, Hb, rev_app_distr, rev_involutive, <- app_assoc. done.
Qed.

(** Groups the pattern does not have keep what they held. *)
Lemma matches_caps_other name r s s' :
  matches r s s' -> mentions name r = false ->
  lookup_cap name (caps s') = lookup_cap name (caps s).
Proof.
  induction 1 as [s | p c rest s Ha Hp | s Hb | r1 r2 s s1 s2 _ IH1 _ IH2
                 | r1 r2 s s1 _ IH | r1 r2 s s1 _ IH | r s
                 | r s s1 s2 _ IH1 _ IH2 | r s Hn | n r s s1 _ IH];
    simpl; intros Hm; try done.
  - apply orb_false_iff in Hm as [Hm1 Hm2]. rewrite IH2, IH1; done.
  - apply orb_false_iff in Hm as [Hm1 Hm2]. by apply IH.
  - apply orb_false_iff in Hm as [Hm1 Hm2]. by apply IH.
  - rewrite IH2, IH1; done.
  - apply orb_false_iff in Hm as [Hm1 Hm2]. rewrite Hm1. by apply IH.
Qed.

(** Literals and runs of one character class. *)
Lemma matches_chars l s s' :
  matches (Chars l) s s' ->
  after s = l ++ after s' /\ before s' = rev l ++ before s /\ caps s' = caps s.
Proof.
  revert s. induction l as [| c l IH]; intros s H; simpl in H.
  - by inv H.
  - inv H. match goal with H1 : matches (Class _) _ _ |- _ => inv H1 end.
    match goal with H2 : matches (Chars _) _ _ |- _ => apply IH in H2 as (Ha & Hb & Hc) end.
    match goal with Hp : is_char _ _ = true |- _ => apply Ascii.eqb_eq in Hp; subst end.
    simpl in *. rewrite Hb, Hc, <- app_assoc.
    match goal with Ha0 : after s = _ |- _ => rewrite Ha0 end. by rewrite Ha.
Qed.

Lemma matches_lit str s s' :
  matches (Lit str) s s' ->
  after s = list_ascii_of_string str ++ after s' /\
  before s' = rev (list_ascii_of_string str) ++ before s /\ caps s' = caps s.
Proof. apply matches_chars. Qed.

Lemma matches_class_star p s s' :
  matches (Star (Class p)) s s' ->
  exists l, forallb p l = true /\ after s = l ++ after s' /\
            before s' = rev l ++ before s /\ caps s' = caps s.
Proof.
  remember (Star (Class p)) as r eqn:Hr.
  induction 1 as [| | | | | | r s | r s s1 s2 H1 _ _ IH2 | |]; try discriminate.
  - by exists [].
  - injection Hr as ->. destruct (IH2 eq_refl) as (l & Hl & Ha & Hb & Hc).
    inv H1. exists (c :: l). simpl in *.
    subst rest. rewrite H2, Hl, H0, Hb, Hc, <- app_assoc. done.
Qed.

Lemma text_of_step c rest s : after s = c :: rest -> text_of (step c rest s) = text_of s.
Proof. unfold text_of. simpl. intros ->. by rewrite <- app_assoc. Qed.

(** Every match object of a scan is a result of the matcher at some cursor
    of the scanned text, started without captures. *)
Lemma scan_sound r fuel : forall s m,
  In m (scan fuel r s) ->
  exists b a s', rev b ++ a = text_of s /\
    exec r (St b a []) Some = Some s' /\
    m = MkMatch (text_of s) (length b) (pos s') (caps s').
Proof.
  induction fuel as [| fuel IH]; intros s m Hin; simpl in Hin; [done |].
  assert (Hstep : forall c rest, after s = c :: rest ->
            In m (scan fuel r (step c rest s)) ->
            exists b a s', rev b ++ a = text_of s /\
              exec r (St b a []) Some = Some s' /\
              m = MkMatch (text_of s) (length b) (pos s') (caps s')).
  { intros c rest Ha Hm. apply IH in Hm as (b & a & s' & Ht & He & ->).
    rewrite (text_of_step _ _ _ Ha) in *. by exists b, a, s'. }
  destruct (exec r (St (before s) (after s) []) Some) as [s' |] eqn:He.
  - destruct Hin as [<- | Hin].
    + by exists (before s), (after s), s'.
    + pose proof He as Hm. apply exec_sound in Hm as (s'' & Hm & [= ->]).
      apply matches_text in Hm. change (text_of s' = text_of s) in Hm.
      destruct (length (after s') <? length (after s))%nat.
      * apply IH in Hin as (b & a & s2 & Ht & He2 & ->).
        change (text_of (St (before s') (after s') [])) with (text_of s') in *.
        rewrite Hm in *. by exists b, a, s2.
      * destruct (after s) as [| c rest] eqn:Ha; [done |]. by eapply Hstep.
  - destruct (after s) as [| c rest] eqn:Ha; [done |]. by eapply Hstep.
Qed.

(** *** The fuel of the loops is enough *)

(** The matcher only looks at what its continuation returns. *)
Lemma star_loop_ext body :
  (forall s k1 k2, (forall s', k1 s' = k2 s') -> body s k1 = body s k2) ->
  forall fuel s k1 k2,
    (forall s', k1 s' = k2 s') ->
    star_loop body k1 fuel s = star_loop body k2 fuel s.
Proof.
  intros Hbody. induction fuel as [| fuel IH]; intros s0 k1 k2 Hk; simpl.
  - apply Hk.
  - rewrite (Hbody s0 _ (fun s1 =>
               if (length (after s1) <? length (after s0))%nat
               then star_loop body k2 fuel s1 else None)).
    + by rewrite Hk.
    + intros s1. destruct (length (after s1) <? length (after s0))%nat; [| done].
      by apply IH.
Qed.

Lemma exec_ext r :
  forall s k1 k2, (forall s', k1 s' = k2 s') -> exec r s k1 = exec r s k2.
Proof.
  induction r as [| p | | r1 IH1 r2 IH2 | r1 IH1 r2 IH2 | r1 IH1 | r1 IH1 | name r1 IH1];
    intros s0 k1 k2 Hk.
  - apply Hk.
  - simpl. destruct (after s0) as [| c rest]; [done |].
    destruct (p c); [apply Hk | done].
  - simpl. destruct (before s0) as [| c l]; [apply Hk |].
    destruct (is_newline c); [apply Hk | done].
  - simpl. apply IH1. intros s1. by apply IH2.
  - simpl. by rewrite (IH1 s0 k1 k2 Hk), (IH2 s0 k1 k2 Hk).
  - exact (star_loop_ext (exec r1) IH1 _ s0 k1 k2 Hk).
  - simpl. by rewrite Hk.
  - simpl. apply IH1. intros s1. apply Hk.
Qed.

(** Any fuel above the length of the remaining text gives the same result:
    [Star] and [finditer] never stop for lack of fuel. *)
Lemma star_loop_fuel r k :
  forall fuel1 fuel2 s,
    (length (after s) < fuel1)%nat -> (length (after s) < fuel2)%nat ->
    star_loop (exec r) k fuel1 s = star_loop (exec r) k fuel2 s.
Proof.
  induction fuel1 as [| fuel1 IH]; intros fuel2 s0 H1 H2; [lia |].
  destruct fuel2 as [| fuel2]; [lia |]. simpl.
  rewrite (exec_ext r s0 _ (fun s1 =>
             if (length (after s1) <? length (after s0))%nat
             then star_loop (exec r) k fuel2 s1 else None)); [done |].
  intros s1. destruct (Nat.ltb_spec (length (after s1)) (length (after s0))); [| done].
  apply IH; lia.
Qed.

Lemma scan_fuel r :
  forall fuel1 fuel2 s,
    (length (after s) < fuel1)%nat -> (length (after s) < fuel2)%nat ->
    scan fuel1 r s = scan fuel2 r s.
Proof.
  induction fuel1 as [| fuel1 IH]; intros fuel2 s0 H1 H2; [lia |].
  destruct fuel2 as [| fuel2]; [lia |]. simpl.
  assert (Hstep : forall c rest, after s0 = c :: rest ->
            scan fuel1 r (step c rest s0) = scan fuel2 r (step c rest s0)).
  { intros c rest Ha. rewrite Ha in H1, H2. simpl in H1, H2. apply IH; simpl; lia. }
  destruct (exec r (St (before s0) (after s0) []) Some) as [s' |].
  - f_equal.
    destruct (Nat.ltb_spec (length (after s')) (length (after s0))).
    + apply IH; simpl; lia.
    + destruct (after s0) as [| c rest] eqn:Ha; [done |]. by apply Hstep.
  - destruct (after s0) as [| c rest] eqn:Ha; [done |]. by apply Hstep.
Qed.

Lemma finditer_fuel r text fuel :
  (String.length text < fuel)%nat ->
  finditer r text = scan fuel r (St [] (list_ascii_of_string text) []).
Proof.
  intros Hf. unfold finditer. cbv zeta. apply scan_fuel; simpl.
  - lia.
  - assert (Hl : forall t, length (list_ascii_of_string t) = String.length t).
    { induction t as [| c t IHt]; simpl; by rewrite ?IHt. }
    by rewrite Hl.
Qed.

(** *** Spans of groups *)

Lemma matches_pos r s s' : matches r s s' -> (pos s <= pos s')%nat.
Proof.
  intros H. apply matches_segment in H as (l & _ & Hb).
  unfold pos. rewrite Hb, length_app. lia.
Qed.

Lemma matches_consumes r s s' :
  matches r s s' -> nullable r = false -> (pos s < pos s')%nat.
Proof.
  induction 1 as [s | p c rest s Ha Hp | s Hb | r1 r2 s s1 s2 H1 IH1 H2 IH2
                 | r1 r2 s s1 _ IH | r1 r2 s s1 _ IH | r s
                 | r s s1 s2 _ IH1 _ IH2 | r s Hn | name r s s1 _ IH];
    simpl; intros Hnull; try done.
  - unfold pos. simpl. lia.
  - apply matches_pos in H1 as P1. apply matches_pos in H2 as P2.
    apply andb_false_iff in Hnull as [Hn | Hn]; [specialize (IH1 Hn) | specialize (IH2 Hn)]; lia.
  - apply orb_false_iff in Hnull as [Hn1 Hn2]. by apply IH.
  - apply orb_false_iff in Hnull as [Hn1 Hn2]. by apply IH.
  - by apply IH.
Qed.

(** A span held after a match was either held before it or lies inside the
    matched segment, and is not empty when the group's body consumes. *)
Lemma matches_span name r s s' a b :
  matches r s s' ->
  lookup_cap name (caps s') = Some (a, b) ->
  lookup_cap name (caps s) = Some (a, b) \/
  ((pos s <= a)%nat /\ (b <= pos s')%nat /\ (consuming name r = true -> (a < b)%nat)).
Proof.
  intros Hm. revert a b.
  induction Hm as [s | p c rest s Ha Hp | s Hb | r1 r2 s s1 s2 H1 IH1 H2 IH2
                 | r1 r2 s s1 H1 IH | r1 r2 s s1 H1 IH | r s
                 | r s s1 s2 H1 IH1 H2 IH2 | r s Hn | n r s s1 H1 IH];
    intros a b Hl; try (by left).
  - apply matches_pos in H1 as P1. apply matches_pos in H2 as P2.
    destruct (IH2 _ _ Hl) as [Hl1 | (Ha & Hb & Hc)].
    + destruct (IH1 _ _ Hl1) as [Hl0 | (Ha & Hb & Hc)]; [by left | right].
      simpl. repeat split; [lia | lia |]. intros [? ?]%andb_true_iff. auto.
    + right. simpl. repeat split; [lia | lia |]. intros [? ?]%andb_true_iff. auto.
  - destruct (IH _ _ Hl) as [Hl0 | (Ha & Hb & Hc)]; [by left | right].
    simpl. repeat split; [lia | lia |]. intros [? ?]%andb_true_iff. auto.
  - destruct (IH _ _ Hl) as [Hl0 | (Ha & Hb & Hc)]; [by left | right].
    simpl. repeat split; [lia | lia |]. intros [? ?]%andb_true_iff. auto.
  - apply matches_pos in H1 as P1. apply matches_pos in H2 as P2.
    destruct (IH2 _ _ Hl) as [Hl1 | (Ha & Hb & Hc)].
    + destruct (IH1 _ _ Hl1) as [Hl0 | (Ha & Hb & Hc)]; [by left | right].
      simpl in *. repeat split; [lia | lia | auto].
    + right. simpl in *. repeat split; [lia | lia | auto].
  - apply matches_pos in H1 as P1. simpl in Hl.
    change (pos (set_cap n (pos s, pos s1) s1)) with (pos s1).
    destruct (String.eqb n name) eqn:En.
    + injection Hl as <- <-. right. simpl. rewrite En. repeat split; [lia | lia |].
      intros [Hnull _]%andb_true_iff. apply negb_true_iff in Hnull.
      by eapply matches_consumes.
    + destruct (IH _ _ Hl) as [Hl0 | (Ha & Hb & Hc)]; [by left | right].
      simpl. rewrite En. repeat split; [lia | lia |]. intros [? ?]%andb_true_iff. auto.
Qed.

Lemma pos_le_text s : (pos s <= length (text_of s))%nat.
Proof. unfold pos, text_of. rewrite length_app, length_rev. lia. Qed.

(** A group whose body consumes never yields the empty string. *)
Lemma scan_group_nonempty name r fuel s m e :
  consuming name r = true ->
  In m (scan fuel r s) -> group m name = Some e -> e <> "".
Proof.
  intros Hc Hin Hg. apply scan_sound in Hin as (b0 & a0 & s' & Ht & He & ->).
  apply exec_sound in He as (s'' & Hm & [= ->]).
  unfold group in Hg. simpl in Hg.
  destruct (lookup_cap name (caps s')) as [[a b] |] eqn:Hl; [| done].
  injection Hg as <-.
  pose proof (matches_text _ _ _ Hm) as Htext.
  unfold text_of at 2 in Htext. simpl in Htext. rewrite Ht in Htext.
  destruct (matches_span _ _ _ _ _ _ Hm Hl) as [Hl0 | (Ha & Hb & Hab)]; [done |].
  specialize (Hab Hc). pose proof (pos_le_text s') as Hp. rewrite Htext in Hp.
  unfold substring.
  destruct (firstn (b - a) (skipn a (text_of s))) as [| c l] eqn:E; [| done].
  apply (f_equal length) in E. rewrite length_firstn, length_skipn in E. simpl in E. lia.
Qed.

End ReFacts.

(* ===================================================================== *)
(** ** Facts about the schema scanner                                     *)
(* ===================================================================== *)

Module ScannerFacts.
Import Re Scanner ReFacts.

(** The scanner on a model file: cardinalities, mapped types, the
    commented-out field dropped, and the shifted tag of a [Broken] class. *)
Example parse_text_sample :
  parse_text sample_model =
    inr ["message BackupManga {";
         "  required int64 source = 1;";
         "  optional string title = 3;";
         "  repeated string genre = 4;";
         "  optional bytes value = 5;";
         "  repeated int64 tags = 6;";
         "  required BackupChapter chapter = 7;";
         "}" +:+ newline;
         "message BrokenBackupHistory {";
         "  required string url = 1;";
         "}" +:+ newline].
Proof. vm_compute. reflexivity. Qed.

Lemma matches_seq_inv r1 r2 s0 s2 :
  matches (Seq r1 r2) s0 s2 -> exists s1, matches r1 s0 s1 /\ matches r2 s1 s2.
Proof. intros Hm. inv Hm. eauto. Qed.

(** Every match object of [finditer] is a match of the pattern from some
    cursor of the text, started without captures. *)
Lemma finditer_sound r text m :
  In m (finditer r text) ->
  exists b a s',
    rev b ++ a = list_ascii_of_string text /\
    matches r (St b a []) s' /\
    m = MkMatch (list_ascii_of_string text) (length b) (pos s') (caps s').
Proof.
  unfold finditer. cbv zeta. intros Hin.
  apply scan_sound in Hin as (b & a & s' & Ht & He & ->).
  apply exec_sound in He as (s'' & Hm & [= ->]).
  by exists b, a, s'.
Qed.

(** Both groups of [CLASS_RE] take part in each of its matches, so
    [class_messages] always finds a name and a body. *)
Lemma class_groups_present data m :
  In m (finditer CLASS_RE data) ->
  is_Some (group m "name") /\ is_Some (group m "defs").
Proof.
  intros Hin. apply finditer_sound in Hin as (b & a & s' & Ht & Hm & ->).
  unfold CLASS_RE in Hm.
  apply matches_seq_inv in Hm as (s1 & P1 & Hm).
  apply matches_seq_inv in Hm as (s2 & P2 & Hm).
  apply matches_seq_inv in Hm as (s3 & P3 & Hm).
  apply matches_seq_inv in Hm as (s4 & P4 & Hm).
  apply matches_seq_inv in Hm as (s5 & P5 & Hm).
  apply matches_seq_inv in Hm as (s6 & P6 & P7).
  unfold group. simpl. split.
  - rewrite (matches_caps_other "name" _ _ _ P7 eq_refl),
      (matches_caps_other "name" _ _ _ P6 eq_refl),
      (matches_caps_other "name" _ _ _ P5 eq_refl).
    inv P4. simpl. eauto.
  - rewrite (matches_caps_other "defs" _ _ _ P7 eq_refl).
    inv P6. simpl. eauto.
Qed.

(** *** Tag-number annotations behind a comment marker *)

(** The annotated alternative starts at the beginning of a line, reaches
    the annotation through white space only, and captures the number right
    behind the opening parenthesis. *)
Lemma annotated_shape s0 s1 :
  matches annotated s0 s1 ->
  at_bol s0 /\
  exists ws rest, forallb is_space ws = true /\
    after s0 = ws ++ list_ascii_of_string "@ProtoNumber(" ++ rest /\
    exists e, lookup_cap "number" (caps s1) = Some (pos s0 + length ws + 13, e)%nat.
Proof.
  unfold annotated. intros Hm.
  apply matches_seq_inv in Hm as (sa & Hbol & Hm). inv Hbol.
  apply matches_seq_inv in Hm as (sb & Hws & Hm).
  apply matches_class_star in Hws as (ws & Hws & Ha & Hb & _).
  apply matches_seq_inv in Hm as (sc & Hneg & Hm). inv Hneg.
  apply matches_seq_inv in Hm as (sd & Hlit & Hm).
  apply matches_lit in Hlit as (Hlit & Hbd & _).
  apply matches_seq_inv in Hm as (se & Hnum & Hm).
  apply (matches_caps_other "number") in Hm; [| reflexivity].
  split; [done |]. exists ws, (after sd). split; [done |].
  split; [by rewrite Ha, Hlit |].
  inv Hnum. rewrite Hm. simpl. eexists. f_equal. f_equal.
  unfold pos. rewrite Hbd, Hb, !length_app, !length_rev. simpl. lia.
Qed.

(** The group [number] takes part only through the annotated alternative. *)
Lemma number_group_annotated s0 s' sp :
  matches PROTONUMBER_RE s0 s' ->
  lookup_cap "number" (caps s0) = None ->
  lookup_cap "number" (caps s') = Some sp ->
  exists s1, matches annotated s0 s1 /\
    lookup_cap "number" (caps s1) = Some sp.
Proof.
  unfold PROTONUMBER_RE. intros Hm H0 Hsp.
  apply matches_seq_inv in Hm as (s1 & Hhead & Hrest).
  apply (matches_caps_other "number") in Hrest; [| reflexivity].
  inversion Hhead as [| | | | ? ? ? ? Hann | ? ? ? ? Hother | | | |]; subst.
  - exists s1. split; [done | congruence].
  - apply (matches_caps_other "number") in Hother; [| reflexivity]. congruence.
Qed.

Lemma comment_before_spaces l b :
  forallb is_space l = true ->
  (b = [] \/ exists c b', b = c :: b' /\ is_newline c = true) ->
  comment_before (l ++ b) = false.
Proof.
  intros Hl Hb. induction l as [| c l IH].
  - destruct Hb as [-> | (c & b' & -> & Hn)]; [done |]. simpl. by rewrite Hn.
  - simpl in Hl. apply andb_true_iff in Hl as [Hc Hl]. specialize (IH Hl).
    change ((c :: l) ++ b) with (c :: (l ++ b)).
    destruct (l ++ b) as [| c' l'] eqn:E; cbn [comment_before].
    + by destruct (is_newline c).
    + cbn [comment_before] in IH. rewrite IH, orb_false_r.
      destruct (is_newline c); [done |].
      destruct (is_char "/" c) eqn:Hs; [| reflexivity].
      apply Ascii.eqb_eq in Hs. subst c. discriminate.
Qed.

(** The number a field carries was read right behind an annotation that
    is not commented out. *)
Lemma recognized_annotation_position defs field a e :
  In field (finditer PROTONUMBER_RE defs) ->
  lookup_cap "number" (m_caps field) = Some (a, e) ->
  exists i, a = (i + 13)%nat /\
    (i < length (list_ascii_of_string defs))%nat /\
    annotation_at (list_ascii_of_string defs) i = true /\
    commented_out (list_ascii_of_string defs) i = false.
Proof.
  intros Hin Hsp. apply finditer_sound in Hin as (b & a0 & s' & Ht & Hm & ->).
  simpl in Hsp.
  destruct (number_group_annotated _ _ _ Hm eq_refl Hsp) as (s1 & Hann & Hsp1).
  apply annotated_shape in Hann as (Hbol & ws & rest & Hws & Ha & e' & Hnum).
  cbn [after before] in Ha, Hbol. unfold at_bol in Hbol. cbn [before] in Hbol.
  rewrite Hsp1 in Hnum. injection Hnum as -> _. unfold pos. cbn [before].
  assert (Hlen : length (rev b ++ ws) = (length b + length ws)%nat)
    by (by rewrite length_app, length_rev).
  exists (length b + length ws)%nat. split; [done |].
  rewrite <- Ht, Ha, app_assoc, <- Hlen.
  split; [rewrite !length_app; simpl; lia |]. split.
  - unfold annotation_at. by rewrite skipn_app, skipn_all, Nat.sub_diag.
  - unfold commented_out.
    rewrite firstn_app, firstn_all, Nat.sub_diag, firstn_0, app_nil_r.
    rewrite rev_app_distr, rev_involutive.
    apply comment_before_spaces; [| exact Hbol].
    rewrite forallb_forall in *. intros x Hx. apply Hws. by apply in_rev.
Qed.

(** C8. A tag-number annotation behind a line comment marker is never
    recognized: in a class body whose annotations are all commented out, no
    recognized field declaration carries an annotation number (the group
    [number] is [None] for every match of [PROTONUMBER_RE]). *)
Theorem commented_annotation_not_recognized (defs : string) :
  only_commented_annotations defs = true ->
  Forall (fun field => group field "number" = None)
         (finditer PROTONUMBER_RE defs).
Proof.
  intros Hall. apply List.Forall_forall. intros field Hin.
  unfold group.
  destruct (lookup_cap "number" (m_caps field)) as [[a e] |] eqn:Hsp; [exfalso | done].
  destruct (recognized_annotation_position _ _ _ _ Hin Hsp) as (i & _ & Hi & Hat & Hco).
  unfold only_commented_annotations in Hall. cbv zeta in Hall.
  rewrite forallb_forall in Hall.
  specialize (Hall i). rewrite Hat, Hco in Hall.
  assert (false = true); [| done]. apply Hall. apply in_seq. lia.
Qed.

(** On [commented_body] the annotation of [url] is commented out: the
    scanner drops that line and numbers the remaining field by default. *)
Lemma commented_annotation_witness :
  only_commented_annotations commented_body = true /\
  Forall (fun field => group field "number" = None)
         (finditer PROTONUMBER_RE commented_body).
Proof.
  split; [reflexivity |].
  apply (commented_annotation_not_recognized commented_body). reflexivity.
Defined.

Example commented_body_fields :
  field_lines "Backup" (finditer PROTONUMBER_RE commented_body) =
    inr ["  required int64 title = 1;"].
Proof. vm_compute. reflexivity. Qed.

(** *** Groups of a recognized field declaration *)

(** In a match of [PROTONUMBER_RE] exactly one of the groups [list] and
    [type] takes part. *)
Lemma list_xor_type s0 s' :
  matches PROTONUMBER_RE s0 s' -> caps s0 = [] ->
  (lookup_cap "list" (caps s') <> None /\ lookup_cap "type" (caps s') = None) \/
  (lookup_cap "list" (caps s') = None /\ lookup_cap "type" (caps s') <> None).
Proof.
  unfold PROTONUMBER_RE. intros Hm H0.
  apply matches_seq_inv in Hm as (s1 & P1 & Hm).
  apply matches_seq_inv in Hm as (s2 & P2 & Hm).
  apply matches_seq_inv in Hm as (s3 & P3 & Hm).
  apply matches_seq_inv in Hm as (s4 & P4 & Hm).
  apply matches_seq_inv in Hm as (s5 & P5 & Hm).
  apply matches_seq_inv in Hm as (s6 & P6 & Hm).
  apply matches_seq_inv in Hm as (s7 & P7 & Hm).
  apply matches_seq_inv in Hm as (s8 & Hty & Hopt).
  assert (Hlist : lookup_cap "list" (caps s7) = None).
  { rewrite (matches_caps_other "list" _ _ _ P7 eq_refl),
      (matches_caps_other "list" _ _ _ P6 eq_refl),
      (matches_caps_other "list" _ _ _ P5 eq_refl),
      (matches_caps_other "list" _ _ _ P4 eq_refl),
      (matches_caps_other "list" _ _ _ P3 eq_refl),
      (matches_caps_other "list" _ _ _ P2 eq_refl),
      (matches_caps_other "list" _ _ _ P1 eq_refl), H0. done. }
  assert (Htype : lookup_cap "type" (caps s7) = None).
  { rewrite (matches_caps_other "type" _ _ _ P7 eq_refl),
      (matches_caps_other "type" _ _ _ P6 eq_refl),
      (matches_caps_other "type" _ _ _ P5 eq_refl),
      (matches_caps_other "type" _ _ _ P4 eq_refl),
      (matches_caps_other "type" _ _ _ P3 eq_refl),
      (matches_caps_other "type" _ _ _ P2 eq_refl),
      (matches_caps_other "type" _ _ _ P1 eq_refl), H0. done. }
  rewrite (matches_caps_other "list" _ _ _ Hopt eq_refl),
    (matches_caps_other "type" _ _ _ Hopt eq_refl).
  unfold declared_type in Hty.
  inversion Hty as [| | | | ? ? ? ? Hcoll | ? ? ? ? Hplain | | | |]; subst.
  - left.
    apply matches_seq_inv in Hcoll as (sa & Q1 & Hcoll).
    apply matches_seq_inv in Hcoll as (sb & Q2 & Hcoll).
    apply matches_seq_inv in Hcoll as (sc & Q3 & Q4).
    split.
    + rewrite (matches_caps_other "list" _ _ _ Q4 eq_refl). by inv Q3.
    + rewrite (matches_caps_other "type" _ _ _ Q4 eq_refl),
        (matches_caps_other "type" _ _ _ Q3 eq_refl),
        (matches_caps_other "type" _ _ _ Q2 eq_refl),
        (matches_caps_other "type" _ _ _ Q1 eq_refl). exact Htype.
  - right. split.
    + by rewrite (matches_caps_other "list" _ _ _ Hplain eq_refl).
    + by inv Hplain.
Qed.

Lemma field_list_xor_type defs field :
  In field (finditer PROTONUMBER_RE defs) ->
  (exists e, group field "list" = Some e /\ group field "type" = None) \/
  (exists t, group field "type" = Some t /\ group field "list" = None).
Proof.
  intros Hin. apply finditer_sound in Hin as (b & a & s' & Ht & Hm & ->).
  apply list_xor_type in Hm; [| done]. unfold group. simpl.
  destruct Hm as [[Hl Hty] | [Hl Hty]]; [left | right]; rewrite Hty || rewrite Hl.
  - destruct (lookup_cap "list" (caps s')) as [[? ?] |]; [eauto | done].
  - destruct (lookup_cap "type" (caps s')) as [[? ?] |]; [eauto | done].
Qed.

(** A group of [PROTONUMBER_RE] whose body consumes is true in Python's
    sense exactly when it took part in the match. *)
Lemma truthy_captured defs field name :
  consuming name PROTONUMBER_RE = true ->
  In field (finditer PROTONUMBER_RE defs) ->
  truthy (group field name) = negb (bool_decide (group field name = None)).
Proof.
  intros Hc Hin. destruct (group field name) as [e |] eqn:Hg; simpl; [| done].
  unfold finditer in Hin.
  pose proof (scan_group_nonempty _ _ _ _ _ _ Hc Hin Hg) as Hne.
  apply String.eqb_neq in Hne. by rewrite Hne.
Qed.

(** *** Wire types *)

Ltac case_key t k :=
  destruct (String.eqb_spec t k) as [-> | ?].

Lemma DATA_TYPES_lookup t :
  default t (DATA_TYPES !! t) = documented_wire_type t.
Proof.
  unfold documented_wire_type, DATA_TYPES.
  case_key t "String"; [reflexivity | rewrite lookup_insert_ne by done].
  case_key t "Int"; [reflexivity | rewrite lookup_insert_ne by done].
  case_key t "Long"; [reflexivity | rewrite lookup_insert_ne by done].
  case_key t "Boolean"; [reflexivity | rewrite lookup_insert_ne by done].
  case_key t "Float"; [reflexivity | rewrite lookup_insert_ne by done].
  case_key t "PreferenceValue"; [reflexivity | rewrite lookup_insert_ne by done].
  by rewrite lookup_empty.
Qed.

Lemma wire_type_scalar t :
  wire_type (Some t) None = Some (documented_wire_type t).
Proof.
  rewrite <- DATA_TYPES_lookup. unfold wire_type, dict_get, py_or. simpl.
  by destruct (DATA_TYPES !! t).
Qed.

Lemma wire_type_collection e :
  e <> "" -> wire_type None (Some e) = Some (documented_wire_type e).
Proof.
  intros He%String.eqb_neq. rewrite <- DATA_TYPES_lookup.
  unfold wire_type, dict_get, py_or. simpl. rewrite He. simpl.
  by destruct (DATA_TYPES !! e).
Qed.

(** *** Tag numbers *)

Lemma tag_number_plain cls n :
  startswith cls "Broken" = false -> n <> "" ->
  tag_number cls (Some n) = inr (PyStr n).
Proof.
  intros Hb Hn%String.eqb_neq. unfold tag_number. rewrite Hb. simpl. by rewrite Hn.
Qed.

Lemma tag_number_default cls :
  startswith cls "Broken" = false -> tag_number cls None = inr (PyInt 1).
Proof. intros Hb. unfold tag_number. by rewrite Hb. Qed.

Lemma tag_number_broken cls n z :
  startswith cls "Broken" = true -> py_int n = inr z ->
  tag_number cls (Some n) = inr (PyInt (z + 1)).
Proof. intros Hb Hz. unfold tag_number. by rewrite Hb, Hz. Qed.

Lemma tag_number_broken_default cls :
  startswith cls "Broken" = true -> tag_number cls None = inl TypeError.
Proof. intros Hb. unfold tag_number. by rewrite Hb. Qed.

Lemma matches_class_plus p s0 s' :
  matches (Plus (Class p)) s0 s' ->
  exists l, l <> [] /\ forallb p l = true /\ after s0 = l ++ after s' /\
            before s' = rev l ++ before s0 /\ caps s' = caps s0.
Proof.
  unfold Plus. intros Hm. apply matches_seq_inv in Hm as (s1 & Hc & Hs).
  apply matches_class_star in Hs as (l & Hl & Ha & Hb & Hcaps).
  inversion Hc as [| ? c rest ? Ha0 Hp | | | | | | | |]; subst.
  exists (c :: l). simpl in *. rewrite Hp, Hl, Ha0, Ha, Hb, Hcaps, <- app_assoc. done.
Qed.

Lemma substring_segment b l rest :
  substring (length b) (length b + length l) (rev b ++ l ++ rest) = l.
Proof.
  unfold substring. rewrite <- (length_rev b).
  rewrite skipn_app, skipn_all, Nat.sub_diag. simpl.
  replace (length (rev b) + length l - length (rev b))%nat with (length l) by lia.
  change (skipn 0 (l ++ rest)) with (l ++ rest).
  by rewrite firstn_app, firstn_all, Nat.sub_diag, firstn_0, app_nil_r.
Qed.

Lemma uint_of_digits ds :
  forallb is_digit ds = true ->
  exists u, NilEmpty.uint_of_string (string_of_list_ascii ds) = Some u.
Proof.
  induction ds as [| c ds IH]; simpl; intros Hd; [eauto |].
  apply andb_true_iff in Hd as [Hc Hd]. destruct (IH Hd) as (u & ->).
  destruct c as [[] [] [] [] [] [] [] []]; try discriminate Hc; simpl; eauto.
Qed.

(** [int] accepts every non-empty string of digits that is within the
    digit limit, and raises [ValueError] on the longer ones. *)
Lemma py_int_digits ds :
  ds <> [] -> forallb is_digit ds = true ->
  exists z,
    py_int (string_of_list_ascii ds) =
      if over_limit (string_of_list_ascii ds) then inl ValueError else inr z.
Proof.
  intros Hne Hd. destruct (uint_of_digits ds Hd) as (u & Hu).
  exists (Z.of_uint u). unfold py_int.
  destruct ds as [| c ds]; [done |].
  change (NilZero.uint_of_string (string_of_list_ascii (c :: ds)))
    with (NilEmpty.uint_of_string (string_of_list_ascii (c :: ds))).
  by rewrite Hu.
Qed.

(** The span of the group [number] holds digits. *)
Lemma annotated_digits s0 s1 a e :
  matches annotated s0 s1 ->
  lookup_cap "number" (caps s1) = Some (a, e) ->
  exists ds, ds <> [] /\ forallb is_digit ds = true /\
    substring a e (text_of s0) = ds.
Proof.
  unfold annotated. intros Hm Hsp.
  apply matches_seq_inv in Hm as (sa & Hbol & Hm). inv Hbol.
  apply matches_seq_inv in Hm as (sb & Hws & Hm). apply matches_text in Hws as Tb.
  apply matches_seq_inv in Hm as (sc & Hneg & Hm). inv Hneg.
  apply matches_seq_inv in Hm as (sd & Hlit & Hm). apply matches_text in Hlit as Td.
  apply matches_seq_inv in Hm as (se & Hnum & Hm).
  apply (matches_caps_other "number") in Hm; [| reflexivity].
  rewrite Hm in Hsp.
  inversion Hnum as [| | | | | | | | | ? ? ? sn Hplus]; subst.
  simpl in Hsp. injection Hsp as <- <-.
  apply matches_class_plus in Hplus as (ds & Hne & Hd & Ha & Hb & _).
  exists ds. split; [done |]. split; [done |].
  rewrite <- Tb, <- Td. unfold text_of, pos. rewrite Ha, Hb, length_app, length_rev.
  rewrite (Nat.add_comm (length ds)). apply substring_segment.
Qed.

(** The number of every annotated field is a decimal literal: it is emitted
    as written, and in a class whose name begins with [Broken] as the
    literal's value plus one, unless the literal is over the digit limit
    of [int]. *)
Lemma annotated_tag_number defs field n :
  In field (finditer PROTONUMBER_RE defs) ->
  group field "number" = Some n ->
  n <> "" /\
  exists z,
    py_int n = (if over_limit n then inl ValueError else inr z) /\
    forall cls, tag_number cls (Some n) =
      if startswith cls "Broken"
      then (if over_limit n then inl ValueError else inr (PyInt (z + 1)))
      else inr (PyStr n).
Proof.
  intros Hin Hg. apply finditer_sound in Hin as (b & a0 & s' & Ht & Hm & ->).
  unfold group in Hg. simpl in Hg.
  destruct (lookup_cap "number" (caps s')) as [[a e] |] eqn:Hsp; [| done].
  injection Hg as <-.
  destruct (number_group_annotated _ _ _ Hm eq_refl Hsp) as (s1 & Hann & Hsp1).
  destruct (annotated_digits _ _ _ _ Hann Hsp1) as (ds & Hne & Hd & Hsub).
  unfold text_of in Hsub. simpl in Hsub. rewrite Ht in Hsub. rewrite Hsub.
  assert (Hn : string_of_list_ascii ds <> "") by (by destruct ds).
  split; [done |].
  destruct (py_int_digits ds Hne Hd) as (z & Hz). exists z. split; [done |].
  intros cls. unfold tag_number. rewrite Hz.
  destruct (startswith cls "Broken"); simpl.
  - by destruct (over_limit (string_of_list_ascii ds)).
  - apply String.eqb_neq in Hn. by rewrite Hn.
Qed.

(** C2. The claim promises tag 2 for a field without annotation in a class
    whose name begins with [Broken]; the scanner raises [TypeError] there
    ([int] applied to [None]) and emits nothing. *)
Theorem broken_class_untagged_field_raises :
  parse_text "data class BrokenBackupHistory(val url: String)" = inl TypeError.
Proof. vm_compute. reflexivity. Qed.

(** *** The matcher on literals and on runs of a character class *)

Lemma advance_0 s : advance 0 s = s.
Proof. by destruct s. Qed.

Lemma advance_step n c rest s :
  after s = c :: rest -> advance n (step c rest s) = advance (S n) s.
Proof.
  intros Ha. unfold advance, step. simpl. rewrite Ha. simpl.
  by rewrite <- app_assoc.
Qed.

Lemma exec_class p s k :
  exec (Class p) s k =
    match after s with
    | c :: rest => if p c then k (step c rest s) else None
    | [] => None
    end.
Proof. reflexivity. Qed.

Lemma exec_chars l : forall s k,
  exec (Chars l) s k =
    if starts_with l (after s) then k (advance (length l) s) else None.
Proof.
  induction l as [| a l IH]; intros s0 k.
  - simpl. by rewrite advance_0.
  - cbn [Chars exec length]. destruct (after s0) as [| c rest] eqn:Ha; [done |].
    cbn [starts_with]. unfold is_char. destruct (Ascii.eqb a c); [| done].
    rewrite IH. cbn [andb after step]. by rewrite advance_step.
Qed.

Lemma length_list_ascii t : length (list_ascii_of_string t) = String.length t.
Proof. induction t as [| c t IHt]; simpl; by rewrite ?IHt. Qed.

Lemma exec_lit str s k :
  exec (Lit str) s k =
    if starts_with (list_ascii_of_string str) (after s)
    then k (advance (String.length str) s) else None.
Proof. unfold Lit. by rewrite exec_chars, length_list_ascii. Qed.

Lemma ltb_tail (c : ascii) rest : (length rest <? length (c :: rest))%nat = true.
Proof. apply Nat.ltb_lt. simpl. lia. Qed.

(** A greedy run whose continuation accepts at the end of the run. *)
Lemma star_class_longest p k res : forall fuel s,
  (length (after s) < fuel)%nat ->
  k (advance (run_length p (after s)) s) = Some res ->
  star_loop (exec (Class p)) k fuel s = Some res.
Proof.
  induction fuel as [| fuel IH]; intros s0 Hf Hk; [lia |].
  cbn [star_loop]. rewrite exec_class.
  destruct (after s0) as [| c rest] eqn:Ha.
  - simpl in Hk. by rewrite advance_0 in Hk.
  - cbn [run_length] in Hk. destruct (p c).
    + cbn [after step]. rewrite ltb_tail.
      rewrite (IH (step c rest s0)); [done | simpl in *; lia |].
      cbn [after step]. by rewrite advance_step.
    + by rewrite advance_0 in Hk.
Qed.

(** A greedy run whose continuation refuses every state that could still
    extend the run: only the end of the run is tried with success. *)
Lemma star_class_reject p k : refuses p k ->
  forall fuel s,
  (length (after s) < fuel)%nat ->
  star_loop (exec (Class p)) k fuel s = k (advance (run_length p (after s)) s).
Proof.
  intros Hr. induction fuel as [| fuel IH]; intros s0 Hf; [lia |].
  cbn [star_loop]. rewrite exec_class.
  destruct (after s0) as [| c rest] eqn:Ha.
  - simpl. by rewrite advance_0.
  - cbn [run_length]. destruct (p c) eqn:Hp.
    + cbn [after step]. rewrite ltb_tail.
      rewrite (IH (step c rest s0)) by (simpl in *; lia).
      cbn [after step]. rewrite advance_step by done.
      destruct (k (advance (S (run_length p rest)) s0)); [done |].
      by rewrite (Hr s0 c rest Ha Hp).
    + by rewrite advance_0.
Qed.

Lemma exec_plus_none p s k :
  run_length p (after s) = O -> exec (Plus (Class p)) s k = None.
Proof.
  unfold Plus. cbn [exec]. destruct (after s) as [| c rest]; [done |].
  simpl. by destruct (p c).
Qed.

Lemma exec_plus_longest p s k res :
  run_length p (after s) <> O ->
  k (advance (run_length p (after s)) s) = Some res ->
  exec (Plus (Class p)) s k = Some res.
Proof.
  unfold Plus. cbn [exec]. destruct (after s) as [| c rest] eqn:Ha; [done |].
  cbn [run_length]. destruct (p c); [| done]. intros _ Hk.
  apply star_class_longest; [simpl; lia |].
  cbn [after step]. by rewrite advance_step.
Qed.

Lemma exec_plus_reject p s k :
  refuses p k ->
  exec (Plus (Class p)) s k =
    match run_length p (after s) with
    | O => None
    | S _ => k (advance (run_length p (after s)) s)
    end.
Proof.
  intros Hr. unfold Plus. cbn [exec]. destruct (after s) as [| c rest] eqn:Ha; [done |].
  cbn [run_length]. destruct (p c); [| done].
  rewrite (star_class_reject p k Hr) by (simpl; lia).
  cbn [after step]. by rewrite advance_step.
Qed.

(** Runs. *)
Lemma run_length_app p l a :
  forallb p l = true -> run_length p (l ++ a) = (length l + run_length p a)%nat.
Proof.
  induction l as [| c l IH]; simpl; [done |].
  intros [-> Hl]%andb_true_iff. by rewrite IH.
Qed.

Lemma run_length_head p c a : p c = false -> run_length p (c :: a) = O.
Proof. simpl. by intros ->. Qed.

Lemma space_not_word c : is_space c = true -> is_word c = false.
Proof. destruct c as [[] [] [] [] [] [] [] []]; (done || discriminate). Qed.

Lemma word_not_space c : is_word c = true -> is_space c = false.
Proof. destruct c as [[] [] [] [] [] [] [] []]; (done || discriminate). Qed.

Lemma refuses_chars p a l k :
  p a = false -> refuses p (fun s0 => exec (Chars (a :: l)) s0 k).
Proof.
  intros Hp s0 c rest Ha Hc. rewrite exec_chars, Ha. cbn [starts_with].
  destruct (Ascii.eqb_spec a c) as [-> | _]; [congruence | done].
Qed.

Lemma refuses_class p q k :
  (forall c, p c = true -> q c = false) -> refuses p (fun s0 => exec (Class q) s0 k).
Proof. intros Hpq s0 c rest Ha Hc. by rewrite exec_class, Ha, (Hpq c Hc). Qed.

Lemma refuses_alt p r1 r2 k :
  refuses p (fun s0 => exec r1 s0 k) -> refuses p (fun s0 => exec r2 s0 k) ->
  refuses p (fun s0 => exec (Alt r1 r2) s0 k).
Proof.
  intros H1 H2 s0 c rest Ha Hc. cbn [exec].
  by rewrite (H1 s0 c rest Ha Hc), (H2 s0 c rest Ha Hc).
Qed.

Lemma refuses_seq p r1 r2 k :
  (forall k', refuses p (fun s0 => exec r1 s0 k')) ->
  refuses p (fun s0 => exec (Seq r1 r2) s0 k).
Proof. intros H1 s0 c rest Ha Hc. cbn [exec]. by apply (H1 _ s0 c rest). Qed.

Lemma refuses_group p n r k :
  (forall k', refuses p (fun s0 => exec r s0 k')) ->
  refuses p (fun s0 => exec (Group n r) s0 k).
Proof. intros H1 s0 c rest Ha Hc. cbn [exec]. by apply (H1 _ s0 c rest). Qed.

(** *** The optional marker *)

Abbreviation marker_body :=
  (Opt (Lit ":") +> Plus (Class is_space) +> Lit "=")%re.

Lemma spaced_equals_complete s1 k :
  (forall s2, is_Some (k s2)) ->
  spaced_equals (after s1) = true ->
  is_Some (exec (Plus (Class is_space) +> Lit "=")%re s1 k).
Proof.
  intros Hk H1. unfold spaced_equals in H1. cbn [exec].
  rewrite exec_plus_reject by (by apply (refuses_chars is_space "="%char [])).
  destruct (run_length is_space (after s1)) as [| n] eqn:Hn; [done |].
  rewrite exec_lit. cbn [after advance list_ascii_of_string starts_with].
  destruct (skipn (S n) (after s1)) as [| c' l']; [done |].
  unfold is_char in H1. cbn [starts_with]. rewrite H1. apply Hk.
Qed.

Lemma marker_body_complete s0 k c r :
  (forall s1, is_Some (k s1)) ->
  after s0 = c :: r ->
  spaced_equals (if is_char ":" c then r else c :: r) = true ->
  is_Some (exec marker_body s0 k).
Proof.
  intros Hk Ha Hm. unfold Opt. cbn [exec]. rewrite exec_lit, Ha.
  cbn [list_ascii_of_string starts_with]. unfold is_char in Hm.
  destruct (Ascii.eqb ":" c) eqn:Hc; cbn [andb].
  - destruct (spaced_equals_complete (advance (String.length ":") s0) k Hk)
      as (res & Hres).
    + cbn [advance after String.length]. by rewrite Ha.
    + cbn [exec] in Hres. rewrite Hres. eauto.
  - apply (spaced_equals_complete s0 k Hk). by rewrite Ha.
Qed.

Lemma marker_complete s0 :
  optional_marked (after s0) = true -> is_Some (exec optional_marker s0 Some).
Proof.
  intros Hm. unfold optional_marker. cbn [exec]. rewrite exec_lit.
  destruct (after s0) as [| c r] eqn:Ha; [done |].
  cbn [optional_marked] in Hm. cbn [list_ascii_of_string starts_with].
  unfold is_char in Hm at 1. destruct (Ascii.eqb "?" c); cbn [andb]; [eauto |].
  apply (marker_body_complete s0 _ c r); [eauto | done | done].
Qed.

Lemma run_length_exact p l c a :
  forallb p l = true -> p c = false ->
  run_length p (l ++ c :: a) = length l /\ skipn (length l) (l ++ c :: a) = c :: a.
Proof.
  intros Hl Hc. rewrite run_length_app, (run_length_head p c a Hc) by done.
  split; [lia |]. by rewrite skipn_app, skipn_all, Nat.sub_diag.
Qed.

Lemma is_char_neq a c : a <> c -> is_char a c = false.
Proof. intros Hn. by apply Ascii.eqb_neq. Qed.

(** What a match of the marker says about the text. *)
Lemma marker_shape s0 s1 :
  matches optional_marker s0 s1 ->
  optional_marked (after s0) = true /\ lookup_cap "optional" (caps s1) <> None.
Proof.
  unfold optional_marker. intros Hm.
  inversion Hm as [| | | | | | | | | ? ? ? sa Hbody]; subst. split; [| done].
  inversion Hbody as [| | | | ? ? ? ? Hq | ? ? ? ? H6 | | | |]; subst.
  - apply matches_lit in Hq as (Ha & _). rewrite Ha. reflexivity.
  - inversion H6 as [| | | | | | | | | ? ? ? sb Hseq]; subst.
    apply matches_seq_inv in Hseq as (sc & Hcolon & Hseq).
    apply matches_seq_inv in Hseq as (sd & Hws & Heq).
    apply matches_class_plus in Hws as (ws & Hne & Hws & Haws & _).
    apply matches_lit in Heq as (Haeq & _). simpl in Haeq.
    rewrite Haeq in Haws.
    destruct (run_length_exact is_space ws "="%char (after sb) Hws eq_refl) as [Hn Hs].
    assert (Hrun : spaced_equals (after sc) = true).
    { unfold spaced_equals. rewrite Haws, Hn, Hs. by destruct ws. }
    inversion Hcolon as [| | | | ? ? ? ? Hc | ? ? ? ? He | | | |]; subst.
    + apply matches_lit in Hc as (Hac & _). simpl in Hac. by rewrite Hac.
    + inversion He; subst. rewrite Haws in *.
      destruct ws as [| c ws']; [done |]. simpl in Hws.
      apply andb_true_iff in Hws as [Hc _].
      cbn [app optional_marked].
      rewrite (is_char_neq "?" c), (is_char_neq ":" c) by (by intros <-).
      exact Hrun.
Qed.

(** *** The declared type *)

Abbreviation collection :=
  ((Lit "List" <|> Lit "Set") +> Lit "<" +> Group "list" (Plus w) +> Lit ">")%re.

Lemma starts_with_eq p : forall l,
  starts_with p l = true -> l = p ++ skipn (length p) l.
Proof.
  induction p as [| a p IH]; intros l H; [done |].
  destruct l as [| c l]; [done |]. simpl in H.
  apply andb_true_iff in H as [Hc Hl]. apply Ascii.eqb_eq in Hc as ->.
  simpl. f_equal. by apply IH.
Qed.

Lemma starts_with_app p : forall l, starts_with p (p ++ l) = true.
Proof. induction p as [| a p IH]; intros l; simpl; [done |]. by rewrite Ascii.eqb_refl, IH. Qed.

Lemma refuses_close_bracket g x k :
  refuses is_word (fun s3 => exec (Lit ">") (set_cap g (x, pos s3) s3) k).
Proof.
  intros s3 c rest Ha Hc. rewrite exec_lit. cbn [after set_cap]. rewrite Ha.
  cbn [list_ascii_of_string starts_with].
  destruct (Ascii.eqb_spec ">"%char c) as [<- | _]; [discriminate | done].
Qed.

Lemma bracketed_complete s1 k e :
  (forall s2, is_Some (k s2)) ->
  bracketed_identifier (after s1) = Some e ->
  is_Some (exec (Group "list" (Plus w) +> Lit ">")%re s1 k).
Proof.
  intros Hk He. unfold bracketed_identifier in He. cbn [exec]. unfold w.
  rewrite exec_plus_reject by apply refuses_close_bracket.
  destruct (run_length is_word (after s1)) as [| n] eqn:Hn; [done |].
  rewrite exec_lit. cbn [after advance set_cap list_ascii_of_string starts_with].
  destruct (skipn (S n) (after s1)) as [| c' l']; [done |].
  unfold is_char in He. cbn [starts_with].
  destruct (Ascii.eqb ">" c'); [apply Hk | done].
Qed.

Lemma after_advance n s0 : after (advance n s0) = skipn n (after s0).
Proof. reflexivity. Qed.

Lemma collection_complete s0 k e :
  (forall s1, is_Some (k s1)) ->
  collection_element (after s0) = Some e ->
  is_Some (exec collection s0 k).
Proof.
  intros Hk He. unfold collection_element, after_prefix in He.
  cbn [exec]. rewrite (exec_lit "List"), (exec_lit "Set").
  destruct (starts_with (list_ascii_of_string "List<") (after s0)) eqn:HL.
  - apply starts_with_eq in HL as Ha. simpl in Ha.
    assert (H1 : starts_with (list_ascii_of_string "List") (after s0) = true)
      by (rewrite Ha; apply (starts_with_app (list_ascii_of_string "List"))).
    rewrite H1, exec_lit, after_advance.
    assert (H2 : starts_with (list_ascii_of_string "<") (skipn (String.length "List") (after s0)) = true)
      by (rewrite Ha; apply (starts_with_app (list_ascii_of_string "<"))).
    rewrite H2.
    destruct (bracketed_complete
                (advance (String.length "<") (advance (String.length "List") s0)) k e Hk)
      as (res & Hres).
    + rewrite !after_advance, skipn_skipn. exact He.
    + cbn [exec] in Hres. rewrite Hres. eauto.
  - destruct (starts_with (list_ascii_of_string "Set<") (after s0)) eqn:HS; [| done].
    apply starts_with_eq in HS as Ha. simpl in Ha.
    assert (H0 : starts_with (list_ascii_of_string "List") (after s0) = false)
      by (by rewrite Ha).
    assert (H1 : starts_with (list_ascii_of_string "Set") (after s0) = true)
      by (rewrite Ha; apply (starts_with_app (list_ascii_of_string "Set"))).
    rewrite H0, H1, exec_lit, after_advance.
    assert (H2 : starts_with (list_ascii_of_string "<") (skipn (String.length "Set") (after s0)) = true)
      by (rewrite Ha; apply (starts_with_app (list_ascii_of_string "<"))).
    rewrite H2.
    destruct (bracketed_complete
                (advance (String.length "<") (advance (String.length "Set") s0)) k e Hk)
      as (res & Hres).
    + rewrite !after_advance, skipn_skipn. exact He.
    + cbn [exec] in Hres. rewrite Hres. eauto.
Qed.

Lemma segment_substring s0 s' l :
  after s0 = l ++ after s' -> before s' = rev l ++ before s0 ->
  substring (pos s0) (pos s') (text_of s0) = l.
Proof.
  intros Ha Hb. unfold pos, text_of. rewrite Hb, Ha, length_app, length_rev.
  rewrite (Nat.add_comm (length l)). apply substring_segment.
Qed.

Lemma bracketed_exact l rest :
  l <> [] -> forallb is_word l = true ->
  bracketed_identifier (l ++ ">"%char :: rest) = Some l.
Proof.
  intros Hne Hl. unfold bracketed_identifier.
  destruct (run_length_exact is_word l ">"%char rest Hl eq_refl) as [-> ->].
  assert (Hf : firstn (length l) (l ++ ">"%char :: rest) = l)
    by (by rewrite firstn_app, firstn_all, Nat.sub_diag, firstn_0, app_nil_r).
  rewrite Hf. by destruct l.
Qed.

(** What a match of the collection shape says about the text. *)
Lemma collection_shape s0 s1 :
  matches collection s0 s1 ->
  exists e x y,
    collection_element (after s0) = Some e /\
    lookup_cap "list" (caps s1) = Some (x, y) /\
    substring x y (text_of s0) = e.
Proof.
  intros Hm.
  apply matches_seq_inv in Hm as (sa & Hkw & Hm). apply matches_text in Hkw as Ta.
  apply matches_seq_inv in Hm as (sb & Hlt & Hm). apply matches_text in Hlt as Tb.
  apply matches_seq_inv in Hm as (sc & Hgr & Hgt).
  apply matches_lit in Hlt as (Alt_ & _). simpl in Alt_.
  apply matches_lit in Hgt as (Agt & _ & Cgt). simpl in Agt.
  inversion Hgr as [| | | | | | | | | ? ? ? sd Hplus]; subst.
  apply matches_class_plus in Hplus as (l & Hne & Hl & Al & Bl & _).
  cbn [after set_cap] in Agt. rewrite Agt in Al.
  exists l, (pos sb), (pos sd). split; [| split].
  - unfold collection_element, after_prefix.
    inversion Hkw as [| | | | ? ? ? ? HL | ? ? ? ? HS | | | |]; subst.
    + apply matches_lit in HL as (AL & _). simpl in AL.
      rewrite AL, Alt_, Al. cbn [list_ascii_of_string starts_with app].
      rewrite !Ascii.eqb_refl. cbn [andb String.length skipn]. rewrite drop_0.
      by apply bracketed_exact.
    + apply matches_lit in HS as (AS & _). simpl in AS.
      rewrite AS, Alt_, Al. cbn [list_ascii_of_string starts_with app].
      cbn [Ascii.eqb Bool.eqb andb String.length skipn]. rewrite drop_0.
      by apply bracketed_exact.
  - rewrite Cgt. reflexivity.
  - rewrite <- Ta, <- Tb. apply segment_substring; [by rewrite Agt | done].
Qed.

Lemma marker_total s1 : is_Some (exec (Opt optional_marker) s1 Some).
Proof.
  unfold Opt. cbn [exec]. destruct (exec optional_marker s1 Some); cbn [exec]; eauto.
Qed.

Lemma exec_seq_sound r1 r2 s0 k res :
  exec (Seq r1 r2) s0 k = Some res ->
  exists s1, matches r1 s0 s1 /\ exec r2 s1 k = Some res.
Proof. cbn [exec]. apply exec_sound. Qed.

Lemma pos_advance n s0 :
  after s0 = firstn n (after s0) ++ after (advance n s0) /\
  before (advance n s0) = rev (firstn n (after s0)) ++ before s0.
Proof. split; [| done]. cbn [after advance]. by rewrite firstn_skipn. Qed.

(** The groups at the end of a match of the declared type and the marker,
    read off the text at the start of the declared type. *)
Lemma tail_reading s7 s' :
  exec (declared_type +> Opt optional_marker)%re s7 Some = Some s' ->
  lookup_cap "list" (caps s7) = None ->
  lookup_cap "type" (caps s7) = None ->
  lookup_cap "optional" (caps s7) = None ->
  match collection_element (after s7) with
  | Some e =>
      (exists x y, lookup_cap "list" (caps s') = Some (x, y) /\
                   substring x y (text_of s7) = e) /\
      lookup_cap "type" (caps s') = None
  | None =>
      lookup_cap "list" (caps s') = None /\
      (exists x y, lookup_cap "type" (caps s') = Some (x, y) /\
                   substring x y (text_of s7) = leading_identifier (after s7)) /\
      (lookup_cap "optional" (caps s') <> None <->
       optional_marked (skipn (run_length is_word (after s7)) (after s7)) = true)
  end.
Proof.
  intros He Hl0 Ht0 Ho0. cbn [exec] in He. unfold declared_type in He.
  cbn [exec] in He.
  destruct (exec collection s7 (fun s1 => exec (Opt optional_marker) s1 Some))
    as [res |] eqn:Ec.
  - cbn [exec] in Ec. rewrite Ec in He. injection He as ->.
    change (exec collection s7 (fun s1 => exec (Opt optional_marker) s1 Some) = Some s') in Ec.
    apply exec_sound in Ec as (s1 & Hc & Hk). apply exec_sound in Hk as (s2 & Hk & [= ->]).
    pose proof (collection_shape _ _ Hc) as (e & x & y & -> & Hx & Hs).
    split.
    + exists x, y. by rewrite (matches_caps_other "list" _ _ _ Hk eq_refl).
    + by rewrite (matches_caps_other "type" _ _ _ Hk eq_refl),
        (matches_caps_other "type" _ _ _ Hc eq_refl).
  - destruct (collection_element (after s7)) as [e |] eqn:Hcoll.
    { destruct (collection_complete s7 _ e marker_total Hcoll) as (res & Hres).
      congruence. }
    cbn [exec] in Ec. rewrite Ec in He. unfold w in He.
    destruct (run_length is_word (after s7)) as [| n] eqn:Hn.
    { by rewrite exec_plus_none in He. }
    set (st := set_cap "type" (pos s7, pos (advance (S n) s7)) (advance (S n) s7)).
    destruct (marker_total st) as (res & Hres).
    erewrite exec_plus_longest in He; [| by rewrite Hn | rewrite Hn; exact Hres].
    injection He as ->.
    assert (Hty : substring (pos s7) (pos (advance (S n) s7)) (text_of s7)
                  = leading_identifier (after s7)).
    { unfold leading_identifier. rewrite Hn.
      destruct (pos_advance (S n) s7) as [Ha Hb]. by apply segment_substring. }
    unfold Opt in Hres. cbn [exec] in Hres.
    destruct (exec optional_marker st Some) as [res |] eqn:Em.
    + injection Hres as ->. apply exec_sound in Em as (s2 & Hm & [= ->]).
      apply marker_shape in Hm as Hshape. destruct Hshape as [Hmark Hopt].
      rewrite (matches_caps_other "list" _ _ _ Hm eq_refl),
        (matches_caps_other "type" _ _ _ Hm eq_refl).
      split; [exact Hl0 |]. split; [by exists (pos s7), (pos (advance (S n) s7)) |].
      split; [by intros _ | by intros _].
    + injection Hres as <-. split; [exact Hl0 |].
      split; [by exists (pos s7), (pos (advance (S n) s7)) |].
      change (lookup_cap "optional" (caps st))
        with (lookup_cap "optional" (caps s7)).
      split; [by rewrite Ho0 |]. intros Hmark.
      destruct (marker_complete st Hmark) as (res & Hres). congruence.
Qed.

(** A declared type opens with a word character. *)
Lemma declared_type_head s7 s8 :
  matches declared_type s7 s8 ->
  run_length is_space (after s7) = O /\ run_length is_word (after s7) <> O.
Proof.
  unfold declared_type. intros Hm.
  inversion Hm as [| | | | ? ? ? ? Hc | ? ? ? ? Ht | | | |]; subst.
  - apply matches_seq_inv in Hc as (sa & Hkw & _).
    inversion Hkw as [| | | | ? ? ? ? HL | ? ? ? ? HS | | | |]; subst.
    + apply matches_lit in HL as (-> & _). by split.
    + apply matches_lit in HS as (-> & _). by split.
  - inversion Ht as [| | | | | | | | | ? ? ? sd Hplus]; subst.
    apply matches_class_plus in Hplus as (l & Hne & Hl & -> & _).
    destruct l as [| c l]; [done |]. simpl in Hl.
    apply andb_true_iff in Hl as [Hc _]. cbn [app run_length].
    by rewrite Hc, (word_not_space c Hc).
Qed.

Lemma skipn_cursor_next (b : list ascii) c a :
  skipn (S (length b)) (rev b ++ c :: a) = a.
Proof.
  change (rev b ++ c :: a) with (rev b ++ [c] ++ a). rewrite app_assoc.
  replace (S (length b)) with (length (rev b ++ [c]))
    by (rewrite length_app, length_rev; simpl; lia).
  by rewrite skipn_app, skipn_all, Nat.sub_diag.
Qed.

(** The groups of a recognized field, read off the text behind its name. *)
Lemma field_reading defs field :
  In field (finditer PROTONUMBER_RE defs) ->
  run_length is_word (type_text field) <> O /\
  match collection_element (type_text field) with
  | Some e =>
      group field "list" = Some (string_of_list_ascii e) /\
      group field "type" = None
  | None =>
      group field "list" = None /\
      group field "type" =
        Some (string_of_list_ascii (leading_identifier (type_text field))) /\
      (group field "optional" <> None <->
       optional_marked
         (skipn (run_length is_word (type_text field)) (type_text field)) = true)
  end.
Proof.
  unfold finditer. cbv zeta. intros Hin.
  apply scan_sound in Hin as (b & a & s' & Ht & He & ->).
  change (text_of (St [] (list_ascii_of_string defs) []))
    with (list_ascii_of_string defs) in *.
  unfold PROTONUMBER_RE in He.
  apply exec_seq_sound in He as (s1 & P1 & He). apply matches_text in P1 as T1.
  apply exec_seq_sound in He as (s2 & P2 & He). apply matches_text in P2 as T2.
  apply exec_seq_sound in He as (s3 & P3 & He). apply matches_text in P3 as T3.
  apply exec_seq_sound in He as (s4 & P4 & He). apply matches_text in P4 as T4.
  apply exec_seq_sound in He as (s5 & P5 & He). apply matches_text in P5 as T5.
  apply exec_seq_sound in He as (s6 & P6 & He). apply matches_text in P6 as T6.
  apply exec_seq_sound in He as (s7 & P7 & He). apply matches_text in P7 as T7.
  assert (X5 : text_of s5 = list_ascii_of_string defs).
  { rewrite T5, T4, T3, T2, T1. unfold text_of. by simpl. }
  assert (X7 : text_of s7 = list_ascii_of_string defs) by (by rewrite T7, T6, X5).
  pose proof He as Htail. apply exec_sound in Htail as (s8 & Htail & [= ->]).
  apply matches_seq_inv in Htail as (s9 & Hty & Hopt).
  assert (Hcaps : forall g,
            mentions g (annotated <|> Lit "data class " +> Plus w +> Lit "(" <|> Bol)%re
              = false ->
            mentions g (Group "name" (Plus w)) = false ->
            lookup_cap g (caps s7) = None).
  { intros g Hg1 Hg5.
    rewrite (matches_caps_other g _ _ _ P7 eq_refl),
      (matches_caps_other g _ _ _ P6 eq_refl),
      (matches_caps_other g _ _ _ P5 Hg5),
      (matches_caps_other g _ _ _ P4 eq_refl),
      (matches_caps_other g _ _ _ P3 eq_refl),
      (matches_caps_other g _ _ _ P2 eq_refl),
      (matches_caps_other g _ _ _ P1 Hg1). done. }
  (* the text behind the name *)
  assert (Htt : type_text (MkMatch (list_ascii_of_string defs) (length b) (pos s') (caps s'))
                = after s7).
  { unfold type_text. cbn [m_caps m_string].
    rewrite (matches_caps_other "name" _ _ _ Hopt eq_refl),
      (matches_caps_other "name" _ _ _ Hty eq_refl),
      (matches_caps_other "name" _ _ _ P7 eq_refl),
      (matches_caps_other "name" _ _ _ P6 eq_refl).
    inversion P5 as [| | | | | | | | | ? ? ? sn Hplus]; subst.
    cbn [caps set_cap lookup_cap]. change (String.eqb "name" "name") with true.
    cbv iota beta zeta.
    apply matches_lit in P6 as (A6 & _). cbn [after set_cap] in A6. simpl in A6.
    apply matches_class_plus in P7 as (ws & _ & Hws & A7 & _).
    destruct (declared_type_head _ _ Hty) as [Hsp _].
    rewrite <- X5. unfold text_of. cbn [before after set_cap]. rewrite A6.
    unfold pos. rewrite skipn_cursor_next, A7.
    rewrite run_length_app, Hsp, Nat.add_0_r by done.
    by rewrite skipn_app, skipn_all, Nat.sub_diag. }
  rewrite Htt. split; [by destruct (declared_type_head _ _ Hty) |].
  pose proof (tail_reading s7 s' He (Hcaps "list" eq_refl eq_refl)
                (Hcaps "type" eq_refl eq_refl)
                (Hcaps "optional" eq_refl eq_refl)) as Hread.
  unfold group. cbn [m_caps m_string]. rewrite <- X7.
  destruct (collection_element (after s7)) as [e |].
  - destruct Hread as ((x & y & -> & <-) & ->). done.
  - destruct Hread as (-> & (x & y & -> & <-) & Hopt'). split; [done |]. split; [done |].
    rewrite <- Hopt'. destruct (lookup_cap "optional" (caps s')) as [[? ?] |]; split; done.
Qed.

(** *** A declaration at the start of the body is recognized *)

Lemma advance_app l b a cs :
  advance (length l) (St b (l ++ a) cs) = St (rev l ++ b) a cs.
Proof.
  unfold advance. cbn [after before caps].
  by rewrite firstn_app, firstn_all, Nat.sub_diag, firstn_0, app_nil_r,
    skipn_app, skipn_all, Nat.sub_diag.
Qed.

Lemma exec_seq_lit str b a cs r k :
  exec (Lit str +> r)%re (St b (list_ascii_of_string str ++ a) cs) k =
  exec r (St (rev (list_ascii_of_string str) ++ b) a cs) k.
Proof.
  cbn [exec]. rewrite exec_lit. cbn [after].
  by rewrite starts_with_app, <- length_list_ascii, advance_app.
Qed.

Lemma exec_seq_class p c b a cs r k :
  p c = true ->
  exec (Class p +> r)%re (St b (c :: a) cs) k = exec r (St (c :: b) a cs) k.
Proof. intros Hp. cbn [exec after]. by rewrite Hp. Qed.

Lemma exec_plus_app p l b a cs k :
  l <> [] -> forallb p l = true -> run_length p a = O -> refuses p k ->
  exec (Plus (Class p)) (St b (l ++ a) cs) k = k (St (rev l ++ b) a cs).
Proof.
  intros Hne Hl Ha Hr. rewrite (exec_plus_reject p _ k Hr). cbn [after].
  rewrite run_length_app, Ha, Nat.add_0_r, advance_app by done.
  destruct l; done.
Qed.

Lemma exec_seq_plus p l b a cs r k :
  l <> [] -> forallb p l = true -> run_length p a = O ->
  refuses p (fun x => exec r x k) ->
  exec (Plus (Class p) +> r)%re (St b (l ++ a) cs) k =
  exec r (St (rev l ++ b) a cs) k.
Proof.
  intros Hne Hl Ha Hr. change (exec (Plus (Class p) +> r)%re (St b (l ++ a) cs) k)
    with (exec (Plus (Class p)) (St b (l ++ a) cs) (fun x => exec r x k)).
  by rewrite exec_plus_app.
Qed.

Lemma exec_seq_group_plus g p l b a cs r k :
  l <> [] -> forallb p l = true -> run_length p a = O ->
  (forall sp, refuses p (fun x => exec r (set_cap g (sp, pos x) x) k)) ->
  exec (Group g (Plus (Class p)) +> r)%re (St b (l ++ a) cs) k =
  exec r (St (rev l ++ b) a ((g, (length b, length (rev l ++ b))) :: cs)) k.
Proof.
  intros Hne Hl Ha Hr.
  change (exec (Group g (Plus (Class p)) +> r)%re (St b (l ++ a) cs) k)
    with (exec (Plus (Class p)) (St b (l ++ a) cs)
            (fun x => exec r (set_cap g (pos (St b (l ++ a) cs), pos x) x) k)).
  by rewrite exec_plus_app.
Qed.

Lemma annotated_mismatch b c a cs k :
  is_space c = false -> c <> "@"%char -> exec annotated (St b (c :: a) cs) k = None.
Proof.
  intros Hs Hc. unfold annotated.
  assert (Hstar : exec (Star Scanner.s +> NegLookahead (Lit "//" +> Star Scanner.s) +>
                        Lit "@ProtoNumber(" +> Group "number" (Plus d) +> Lit ")" +>
                        Star Scanner.s)%re (St b (c :: a) cs) k = None).
  { cbn [exec after star_loop]. unfold Scanner.s at 1. rewrite exec_class.
    cbn [after]. rewrite Hs.
    destruct (exec (Lit "//") _ _); [done |]. rewrite exec_lit. cbn [after].
    cbn [list_ascii_of_string starts_with].
    by rewrite (proj2 (Ascii.eqb_neq "@" c)) by (by intros <-). }
  cbn [exec] in *. destruct (before (St b (c :: a) cs)) as [| c' b']; [exact Hstar |].
  destruct (is_newline c'); [exact Hstar | done].
Qed.

Lemma rl_ok c : c = "r"%char \/ c = "l"%char ->
  (fun c0 => is_char "r" c0 || is_char "l" c0) c = true.
Proof. by intros [-> | ->]. Qed.

Lemma run_word_not_space t :
  run_length is_word t <> O -> run_length is_space t = O.
Proof.
  destruct t as [| c t]; [done |]. simpl. destruct (is_word c) eqn:Hw; [| done].
  by rewrite (word_not_space c Hw).
Qed.

Lemma run_nonempty p l a :
  l <> [] -> forallb p l = true -> run_length p (l ++ a) <> O.
Proof. intros Hne Hl. rewrite run_length_app by done. destruct l; simpl; [done | lia]. Qed.

Lemma tail_complete s7 :
  run_length is_word (after s7) <> O ->
  is_Some (exec (declared_type +> Opt optional_marker)%re s7 Some).
Proof.
  intros Hn. cbn [exec]. unfold declared_type. cbn [exec].
  match goal with |- is_Some (match ?e with _ => _ end) => destruct e; [eauto |] end.
  unfold w.
  destruct (marker_total
              (set_cap "type" (pos s7, pos (advance (run_length is_word (after s7)) s7))
                 (advance (run_length is_word (after s7)) s7))) as (res & Hres).
  erewrite exec_plus_longest; [eauto | done | exact Hres].
Qed.

Lemma refuses_tail k :
  refuses is_space (fun x => exec (declared_type +> Opt optional_marker)%re x k).
Proof.
  apply refuses_seq. intros k'. unfold declared_type. apply refuses_alt.
  - apply refuses_seq. intros k''. apply refuses_alt.
    + by apply (refuses_chars is_space "L"%char).
    + by apply (refuses_chars is_space "S"%char).
  - apply refuses_group. intros k''. unfold w, Plus. apply refuses_seq. intros k3.
    apply refuses_class. apply space_not_word.
Qed.

Lemma exec_head_bare c a r k :
  is_space c = false -> c <> "@"%char -> c <> "d"%char ->
  exec ((annotated <|> Lit "data class " +> Plus w +> Lit "(" <|> Bol) +> r)%re
       (St [] (c :: a) []) k =
  exec r (St [] (c :: a) []) k.
Proof.
  intros Hs Hat Hd.
  change (exec ((annotated <|> Lit "data class " +> Plus w +> Lit "(" <|> Bol) +> r)%re
            (St [] (c :: a) []) k)
    with (exec (annotated <|> Lit "data class " +> Plus w +> Lit "(" <|> Bol)%re
            (St [] (c :: a) []) (fun x => exec r x k)).
  set (k' := fun x => exec r x k). cbn [exec before].
  rewrite annotated_mismatch, exec_lit by done.
  cbn [after list_ascii_of_string starts_with].
  by rewrite (proj2 (Ascii.eqb_neq "d" c)) by (by intros <-).
Qed.

Lemma declaration_exec c ws1 name ws2 t :
  well_formed c ws1 name ws2 t ->
  exists s',
    exec PROTONUMBER_RE (St [] (declaration c ws1 name ws2 t) []) Some = Some s' /\
    lookup_cap "name" (caps s') =
      Some (length (rev ws1 ++ [c; "a"; "v"]%char),
            length (rev name ++ rev ws1 ++ [c; "a"; "v"]%char)) /\
    lookup_cap "number" (caps s') = None.
Proof.
  intros (Hc & Hne1 & Hws1 & Hnen & Hname & Hne2 & Hws2 & Ht).
  set (s7 := St (rev ws2 ++ ":"%char :: rev name ++ rev ws1 ++ [c; "a"; "v"]%char) t
               [("name", (length (rev ws1 ++ [c; "a"; "v"]%char),
                          length (rev name ++ rev ws1 ++ [c; "a"; "v"]%char)))]).
  assert (Hexec : exec PROTONUMBER_RE (St [] (declaration c ws1 name ws2 t) []) Some
                  = exec (declared_type +> Opt optional_marker)%re s7 Some).
  { unfold PROTONUMBER_RE, declaration.
    (* the head: only the bare start of line applies *)
    change (list_ascii_of_string "va") with ["v"; "a"]%char. cbn [app].
    rewrite exec_head_bare by done.
    (* val or var, the name, the colon *)
    rewrite (exec_seq_lit "va" [] (c :: ws1 ++ name ++ ":"%char :: ws2 ++ t) [] _ Some).
    cbn [list_ascii_of_string rev app].
    unfold rl. rewrite exec_seq_class by (by apply rl_ok).
    unfold Scanner.s, w.
    rewrite exec_seq_plus;
      [| done | done | by apply run_word_not_space, run_nonempty | ].
    2:{ apply refuses_seq. intros k'. apply refuses_group. intros k''.
        unfold Plus. apply refuses_seq. intros k3. apply refuses_class.
        apply space_not_word. }
    rewrite exec_seq_group_plus; [| done | done | done | ].
    2:{ intros sp x ch rest Ha Hch. cbn [exec]. rewrite exec_lit.
        cbn [after set_cap]. rewrite Ha. cbn [list_ascii_of_string starts_with].
        destruct (Ascii.eqb_spec ":"%char ch) as [<- | _]; [discriminate | done]. }
    rewrite (exec_seq_lit ":" _ (ws2 ++ t)). cbn [list_ascii_of_string rev app].
    rewrite exec_seq_plus; [| done | done | by apply run_word_not_space | apply refuses_tail].
    reflexivity. }
  destruct (tail_complete s7 Ht) as (s' & Hs').
  exists s'. split; [by rewrite Hexec |].
  apply exec_sound in Hs' as (s'' & Hm & [= ->]).
  by rewrite (matches_caps_other "name" _ _ _ Hm eq_refl),
    (matches_caps_other "number" _ _ _ Hm eq_refl).
Qed.

Lemma declaration_recognized c ws1 name ws2 t :
  well_formed c ws1 name ws2 t ->
  exists field rest,
    finditer PROTONUMBER_RE (string_of_list_ascii (declaration c ws1 name ws2 t))
      = field :: rest /\
    m_start field = O /\
    group field "name" = Some (string_of_list_ascii name) /\
    group field "number" = None /\
    type_text field = t.
Proof.
  intros Hwf. destruct (declaration_exec _ _ _ _ _ Hwf) as (s' & He & Hname & Hnum).
  destruct Hwf as (Hc & Hne1 & Hws1 & Hnen & Hnm & Hne2 & Hws2 & Ht).
  unfold finditer. rewrite list_ascii_of_string_of_list_ascii. cbv zeta.
  cbn [scan before after]. rewrite He.
  eexists _, _. split; [reflexivity |].
  assert (Htext : declaration c ws1 name ws2 t =
                  rev (rev name ++ rev ws1 ++ [c; "a"; "v"]%char) ++ ":"%char :: ws2 ++ t).
  { unfold declaration. rewrite !rev_app_distr, !rev_involutive. simpl.
    by rewrite <- ?app_assoc. }
  split; [done |]. split; [| split; [by unfold group; cbn [m_caps]; rewrite Hnum |]].
  - unfold group. cbn [m_caps m_string]. rewrite Hname. f_equal. f_equal.
    cbn [text_of before after rev app].
    replace (declaration c ws1 name ws2 t)
      with (rev (rev ws1 ++ [c; "a"; "v"]%char) ++ name ++ ":"%char :: ws2 ++ t).
    + rewrite (length_app (rev name)), length_rev, Nat.add_comm.
      apply substring_segment.
    + unfold declaration. rewrite !rev_app_distr, !rev_involutive. simpl.
      by rewrite <- ?app_assoc.
  - unfold type_text. cbn [m_caps m_string]. rewrite Hname. cbv zeta.
    cbn [text_of before after rev app]. rewrite Htext, skipn_cursor_next.
    rewrite run_length_app, (run_word_not_space t Ht), Nat.add_0_r by done.
    by rewrite skipn_app, skipn_all, Nat.sub_diag.
Qed.

(** *** Cardinality and types, read from the text *)

Lemma cardinality_reading defs field :
  In field (finditer PROTONUMBER_RE defs) ->
  cardinality (group field "list") (group field "optional") =
  declared_cardinality (type_text field).
Proof.
  intros Hin. destruct (field_reading defs field Hin) as [_ Hread].
  unfold cardinality, declared_cardinality.
  rewrite (truthy_captured defs field "list" eq_refl Hin).
  rewrite (truthy_captured defs field "optional" eq_refl Hin).
  destruct (collection_element (type_text field)) as [e |].
  - destruct Hread as (-> & _). done.
  - destruct Hread as (-> & _ & Hopt). simpl.
    destruct (optional_marked _).
    + destruct (group field "optional"); [done |]. by destruct (proj2 Hopt eq_refl).
    + destruct (group field "optional") as [o |]; [| done].
      by assert (false = true) by (by apply Hopt).
Qed.

Lemma wire_type_reading defs field :
  In field (finditer PROTONUMBER_RE defs) ->
  wire_type (group field "type") (group field "list") =
  Some (documented_wire_type (declared_type_name (type_text field))).
Proof.
  intros Hin. destruct (field_reading defs field Hin) as [_ Hread].
  unfold declared_type_name.
  destruct (collection_element (type_text field)) as [e |].
  - destruct Hread as (Hl & ->). rewrite Hl. apply wire_type_collection.
    eapply (scan_group_nonempty "list"); [| exact Hin | exact Hl]. reflexivity.
  - destruct Hread as (-> & -> & _). apply wire_type_scalar.
Qed.

(** The line emitted for a declaration that opens the body of a class
    whose name does not begin with [Broken]. *)
Lemma declaration_line c ws1 name ws2 t cls :
  well_formed c ws1 name ws2 t ->
  startswith cls "Broken" = false ->
  exists field rest,
    finditer PROTONUMBER_RE (string_of_list_ascii (declaration c ws1 name ws2 t))
      = field :: rest /\
    group field "name" = Some (string_of_list_ascii name) /\
    type_text field = t /\
    cardinality (group field "list") (group field "optional") =
      declared_cardinality t /\
    field_line cls field =
      inr ("  " +:+ declared_cardinality t +:+ " " +:+
           documented_wire_type (declared_type_name t) +:+ " " +:+
           string_of_list_ascii name +:+ " = 1;").
Proof.
  intros Hwf Hb.
  destruct (declaration_recognized _ _ _ _ _ Hwf)
    as (field & rest & Hf & _ & Hname & Hnum & Htt).
  exists field, rest.
  assert (Hin : In field
            (finditer PROTONUMBER_RE (string_of_list_ascii (declaration c ws1 name ws2 t))))
    by (rewrite Hf; by left).
  pose proof (cardinality_reading _ _ Hin) as Hcard.
  pose proof (wire_type_reading _ _ Hin) as Hty.
  rewrite Htt in Hcard, Hty.
  repeat split; try done.
  unfold field_line. rewrite Hcard, Hty, Hname, Hnum, (tag_number_default cls Hb).
  reflexivity.
Qed.

(** C3, as stated, fails in three ways: a nullable collection is
    [repeated], not [optional]; a default value written without white space
    before the equals sign leaves the field [required]; and a collection
    whose element type is not a single identifier is [required], not
    [repeated]. *)
Lemma cardinality_counterexamples :
  (exists field,
     finditer PROTONUMBER_RE "val tags: List<String>?" = [field] /\
     group field "list" = Some "String" /\
     group field "optional" = Some "?" /\
     cardinality (group field "list") (group field "optional") = "repeated" /\
     field_line "Backup" field = inr "  repeated string tags = 1;") /\
  field_lines "Backup" (finditer PROTONUMBER_RE "val count: Int=3") =
    inr ["  required int32 count = 1;"] /\
  field_lines "Backup" (finditer PROTONUMBER_RE "val ids: List<Long?>") =
    inr ["  required List ids = 1;"].
Proof.
  split; [| split; vm_compute; reflexivity].
  eexists. split; [vm_compute; reflexivity |]. vm_compute. auto.
Qed.

(** The marker also takes a colon before the white space. *)
Example colon_before_equals :
  field_lines "Backup" (finditer PROTONUMBER_RE "val d: Int: = 3") =
    inr ["  optional int32 d = 1;"].
Proof. vm_compute. reflexivity. Qed.

(** C3 (amended). The cardinality of every recognized field declaration is
    read off the text behind its name, the colon and the white space:
    [repeated] when that text opens with [List<E>] or [Set<E>] for an
    identifier [E]; otherwise [optional] when the identifier it opens with
    is directly followed by a question mark, or by white space and an
    equals sign with a colon allowed before the white space; otherwise
    [required]. A declaration that opens a class body is recognized, with
    that cardinality. *)
Theorem cardinality_by_declaration :
  (forall defs,
     Forall (fun field =>
       cardinality (group field "list") (group field "optional") =
       declared_cardinality (type_text field))
     (finditer PROTONUMBER_RE defs)) /\
  (forall c ws1 name ws2 t,
     well_formed c ws1 name ws2 t ->
     exists field rest,
       finditer PROTONUMBER_RE (string_of_list_ascii (declaration c ws1 name ws2 t))
         = field :: rest /\
       group field "name" = Some (string_of_list_ascii name) /\
       type_text field = t /\
       cardinality (group field "list") (group field "optional") =
         declared_cardinality t).
Proof.
  split.
  - intros defs. apply List.Forall_forall. intros field Hin.
    by apply (cardinality_reading defs).
  - intros c ws1 name ws2 t Hwf.
    destruct (declaration_line c ws1 name ws2 t "" Hwf eq_refl)
      as (field & rest & Hf & Hname & Htt & Hcard & _).
    by exists field, rest.
Qed.

(** C3 on [var title: String = x]: recognized, and [optional]. *)
Lemma cardinality_by_declaration_witness :
  exists field rest,
    finditer PROTONUMBER_RE "var title: String = x" = field :: rest /\
    group field "name" = Some "title" /\
    type_text field = list_ascii_of_string "String = x" /\
    cardinality (group field "list") (group field "optional") = "optional".
Proof.
  apply (proj2 cardinality_by_declaration "r"%char [" "%char]
           (list_ascii_of_string "title") [" "%char]
           (list_ascii_of_string "String = x")).
  repeat split; (done || by left).
Defined.

(** C4, as stated, fails for a collection whose element type is not a
    single identifier: the outer name is mapped, and emitted unchanged. *)
Lemma nested_collection_keeps_outer_name :
  field_lines "Backup" (finditer PROTONUMBER_RE "val ids: List<Long?>") =
    inr ["  required List ids = 1;"] /\
  field_lines "Backup" (finditer PROTONUMBER_RE "val rows: List<List<Long>>") =
    inr ["  required List rows = 1;"] /\
  field_lines "Backup" (finditer PROTONUMBER_RE "val seen: Set<kotlin.Long>") =
    inr ["  required Set seen = 1;"].
Proof. repeat split; vm_compute; reflexivity. Qed.

(** C4 (amended). The Type Mapper gives the documented wire type of the six
    scalar names and the name itself for every other name, without an
    error case. For every recognized field the name that is mapped is read
    off the text behind the field's name, the colon and the white space:
    the element [E] when that text opens with [List<E>] or [Set<E>] for an
    identifier [E], and otherwise the identifier the text opens with, which
    for any other collection is the outer [List] or [Set]. A declaration
    that opens a class body is recognized and emitted with that type. *)
Theorem wire_type_of_declared_type :
  (wire_type (Some "String") None = Some "string" /\
   wire_type (Some "Int") None = Some "int32" /\
   wire_type (Some "Long") None = Some "int64" /\
   wire_type (Some "Boolean") None = Some "bool" /\
   wire_type (Some "Float") None = Some "float" /\
   wire_type (Some "PreferenceValue") None = Some "bytes") /\
  (forall t,
     ~ In t ["String"; "Int"; "Long"; "Boolean"; "Float"; "PreferenceValue"] ->
     wire_type (Some t) None = Some t) /\
  (forall defs,
     Forall (fun field =>
       wire_type (group field "type") (group field "list") =
       Some (documented_wire_type (declared_type_name (type_text field))))
     (finditer PROTONUMBER_RE defs)) /\
  (forall c ws1 name ws2 t cls,
     well_formed c ws1 name ws2 t ->
     startswith cls "Broken" = false ->
     exists field rest,
       finditer PROTONUMBER_RE (string_of_list_ascii (declaration c ws1 name ws2 t))
         = field :: rest /\
       type_text field = t /\
       field_line cls field =
         inr ("  " +:+ declared_cardinality t +:+ " " +:+
              documented_wire_type (declared_type_name t) +:+ " " +:+
              string_of_list_ascii name +:+ " = 1;")).
Proof.
  split; [repeat split; reflexivity |]. split; [| split].
  - intros t Hn. rewrite wire_type_scalar. unfold documented_wire_type.
    case_key t "String"; [exfalso; apply Hn; simpl; tauto |].
    case_key t "Int"; [exfalso; apply Hn; simpl; tauto |].
    case_key t "Long"; [exfalso; apply Hn; simpl; tauto |].
    case_key t "Boolean"; [exfalso; apply Hn; simpl; tauto |].
    case_key t "Float"; [exfalso; apply Hn; simpl; tauto |].
    case_key t "PreferenceValue"; [exfalso; apply Hn; simpl; tauto |].
    done.
  - intros defs. apply List.Forall_forall. intros field Hin.
    by apply (wire_type_reading defs).
  - intros c ws1 name ws2 t cls Hwf Hb.
    destruct (declaration_line c ws1 name ws2 t cls Hwf Hb)
      as (field & rest & Hf & _ & Htt & _ & Hline).
    by exists field, rest.
Qed.

(** C4 on [val genre: Set<Long>]: recognized, and emitted with the wire
    type of the element. *)
Lemma wire_type_of_declared_type_witness :
  exists field rest,
    finditer PROTONUMBER_RE "val genre: Set<Long>" = field :: rest /\
    type_text field = list_ascii_of_string "Set<Long>" /\
    field_line "BackupManga" field = inr "  repeated int64 genre = 1;".
Proof.
  apply (proj2 (proj2 (proj2 wire_type_of_declared_type)) "l"%char [" "%char]
           (list_ascii_of_string "genre") [" "%char]
           (list_ascii_of_string "Set<Long>") "BackupManga").
  - repeat split; (done || by right).
  - reflexivity.
Defined.

End ScannerFacts.

(* ===================================================================== *)
(** ** Facts about the container codec                                    *)
(* ===================================================================== *)

Module CodecFacts.
Import Codec.

Ltac run :=
  unfold try_except, mbind, M_bind, mret, M_ret, bind, ret, raise, exit, lift,
    print, print_help, emit, gzip_open, open_, open_as, read, write;
  simpl.

(** Decoding a compressed container with the toy runtime: the payload is
    unpacked into the side file and mirrored to [output.json]. *)
Example decode_sample :
  main (H := toy_runtime)
       (MkArgs (Some "backup.tachibk") "output.json" "mihon")
       (World {["backup.tachibk" := "GZpayload"]} []) =
    (Return tt,
     World (<["output.json" := "{payload}"]>
              (<["extracted_tachibk" := "payload"]>
                 {["backup.tachibk" := "GZpayload"]}))
           [GzipOpen "backup.tachibk" "rb"; Open "extracted_tachibk" "wb";
            Open "output.json" "wt";
            Print ("Backup decoded to " +:+ dquote +:+ "output.json" +:+ dquote)]).
Proof. vm_compute. reflexivity. Qed.

Lemma opened_paths_app evs1 evs2 :
  opened_paths (evs1 ++ evs2) = opened_paths evs1 ++ opened_paths evs2.
Proof.
  induction evs1 as [| e evs1 IH]; [done |].
  destruct e; simpl; by rewrite ?IH.
Qed.

Lemma gz_ext_not_output_json path :
  gz_ext path = true -> path <> "output.json".
Proof. intros Hg ->. discriminate. Qed.

Section Facts.
Context `{Runtime}.

(** *** What each function does *)

(** [open(input, 'b')] names no access mode: [parse_json] raises
    [ValueError] before the file system is touched, whatever the file and
    whatever the serializer would say. *)
Lemma parse_json_raises input w :
  parse_json input w = (Raise ValueError, w).
Proof. reflexivity. Qed.

Lemma main_json_raises args w :
  endswith (str_input args) ".json" = true ->
  main args w = (Raise ValueError, w).
Proof. intros E. unfold main. rewrite E. reflexivity. Qed.

Lemma read_backup_plain input w :
  gz_ext input = false ->
  read_backup input w =
    match files w !! "extracted_tachibk" with
    | Some content =>
        (Return content,
         World (files w) (trace w ++ [Open "extracted_tachibk" "rb"]))
    | None =>
        (Exit 1,
         World (files w)
               (trace w ++ [Open "extracted_tachibk" "rb";
                            Print "ERROR! No Backup to process."; PrintHelp]))
    end.
Proof.
  unfold gz_ext. intros E. unfold read_backup. rewrite E.
  run. destruct (files w !! "extracted_tachibk") as [content |] eqn:Hf; simpl.
  - by rewrite Hf.
  - by rewrite <- !app_assoc.
Qed.

Lemma read_backup_gz input w :
  gz_ext input = true ->
  read_backup input w =
    let w1 := World (files w) (trace w ++ [GzipOpen input "rb"]) in
    match files w !! input with
    | None => (Raise OSError, w1)
    | Some content =>
        match decompress content with
        | inl e => (Raise e, w1)
        | inr data =>
            let w2 :=
              World (files w)
                    (trace w ++ [GzipOpen input "rb"; Open "extracted_tachibk" "wb"]) in
            if writable "extracted_tachibk"
            then (Return data,
                  World (<["extracted_tachibk" := data]> (files w)) (trace w2))
            else (Raise OSError, w2)
        end
    end.
Proof.
  unfold gz_ext. intros E. unfold read_backup. rewrite E.
  run. destruct (files w !! input) as [content |] eqn:Hf; simpl; [| done].
  rewrite Hf. destruct (decompress content) as [e | data]; simpl; [done |].
  rewrite <- app_assoc. simpl.
  destruct (writable "extracted_tachibk"); simpl; [| done].
  rewrite lookup_insert_eq. simpl. by rewrite insert_insert_eq.
Qed.

Lemma write_backup_run args message w :
  let out := effective_output args in
  write_backup args message w =
    if gz_ext out then
      if writable out
      then (Return tt,
            World (<[out := compress message]> (files w))
                  (trace w ++ [GzipOpen out "wb";
                               Print ("Compressed backup written to " +:+ out)]))
      else (Raise OSError, World (files w) (trace w ++ [GzipOpen out "wb"]))
    else
      if writable out
      then (Return tt,
            World (<[out := message]> (files w))
                  (trace w ++ [Open out "wb";
                               Print ("Uncompressed backup written to " +:+ out)]))
      else (Raise OSError, World (files w) (trace w ++ [Open out "wb"])).
Proof.
  unfold write_backup, effective_output, gz_ext. cbv zeta.
  set (out := if String.eqb (output args) "output.json" then _ else _).
  rewrite (orb_comm (endswith out ".tachibk")).
  destruct (endswith out ".proto.gz" || endswith out ".tachibk");
    run; destruct (writable out); simpl; try done;
    rewrite lookup_insert_eq, insert_insert_eq; simpl;
    by rewrite <- app_assoc.
Qed.

(** *** Encoding from JSON *)

(** C1. The claim promises that an input ending in [.json] with the default
    output is encoded into [encoded_backup.tachibk]. The program raises
    [ValueError] instead, for every content of the JSON file and every
    serializer, and leaves the file store as it was. *)
Theorem encode_default_output_raises json w :
  let w0 := World (<["output.json" := json]> (files w)) (trace w) in
  main (MkArgs (Some "output.json") "output.json" "mihon") w0
    = (Raise ValueError, w0).
Proof. apply main_json_raises. reflexivity. Qed.

(** *** Decoding *)

(** C7. Decoding an input that has neither compressed-container extension
    while no [extracted_tachibk] file exists ends the process with status 1
    after the line [ERROR! No Backup to process.] and the usage help; the
    only file opened is [extracted_tachibk], for reading, and the file
    store is unchanged. *)
Theorem decode_without_backup_exits args w :
  endswith (str_input args) ".json" = false ->
  gz_ext (str_input args) = false ->
  files w !! "extracted_tachibk" = None ->
  main args w =
    (Exit 1,
     World (files w)
           (trace w ++ [Open "extracted_tachibk" "rb";
                        Print "ERROR! No Backup to process."; PrintHelp])).
Proof.
  intros Hj Hg Hf. unfold main. rewrite Hj.
  unfold mbind, M_bind, bind. rewrite (read_backup_plain _ _ Hg), Hf. done.
Qed.

(** C9. Reading a backup whose path has a compressed-container extension
    also stores the decompressed payload in [extracted_tachibk]. For every
    other path the only file opened is [extracted_tachibk]: the store is
    left unchanged and the bytes returned are the content of that file,
    whatever the input path names. *)
Theorem read_backup_side_file input w :
  (gz_ext input = true ->
   forall content data,
     files w !! input = Some content ->
     decompress content = inr data ->
     writable "extracted_tachibk" = true ->
     exists w',
       read_backup input w = (Return data, w') /\
       files w' = <["extracted_tachibk" := data]> (files w)) /\
  (gz_ext input = false ->
   exists out w' evs,
     read_backup input w = (out, w') /\
     files w' = files w /\
     trace w' = trace w ++ evs /\
     opened_paths evs = ["extracted_tachibk"] /\
     (input <> "extracted_tachibk" -> ~ In input (opened_paths evs)) /\
     forall content,
       files w !! "extracted_tachibk" = Some content -> out = Return content).
Proof.
  split.
  - intros Hg content data Hf Hd Hw.
    rewrite (read_backup_gz _ _ Hg). cbv zeta. rewrite Hf, Hd, Hw. eauto.
  - intros Hg. rewrite (read_backup_plain _ _ Hg).
    destruct (files w !! "extracted_tachibk") as [content |].
    + do 3 eexists. split; [reflexivity |]. simpl.
      repeat split; try reflexivity; [| by intros ? [= ->]].
      intros Hne [Heq | []]. by apply Hne.
    + do 3 eexists. split; [reflexivity |]. simpl.
      repeat split; try reflexivity; [| done].
      intros Hne [Heq | []]. by apply Hne.
Qed.

(** *** Writing the encoded backup *)

(** C10. [write_backup] replaces the output path [output.json] by
    [encoded_backup.tachibk] and uses every other output path as it is; the
    file it opens is therefore never [output.json], whose content stays as
    it was, and on success the opened file holds the backup. *)
Theorem write_backup_never_targets_output_json args message w :
  let path := effective_output args in
  (output args = "output.json" -> path = "encoded_backup.tachibk") /\
  (output args <> "output.json" -> path = output args) /\
  path <> "output.json" /\
  exists out w',
    write_backup args message w = (out, w') /\
    opened_paths (trace w') = opened_paths (trace w) ++ [path] /\
    files w' !! "output.json" = files w !! "output.json" /\
    (forall other, other <> path -> files w' !! other = files w !! other) /\
    (writable path = true ->
     out = Return tt /\
     files w' !! path =
       Some (if gz_ext path then compress message else message)).
Proof.
  cbv zeta.
  assert (Hne : effective_output args <> "output.json").
  { unfold effective_output.
    destruct (String.eqb_spec (output args) "output.json"); done. }
  split; [unfold effective_output; by intros -> |].
  split; [unfold effective_output; intros Ho%String.eqb_neq; by rewrite Ho |].
  split; [exact Hne |].
  rewrite write_backup_run. cbv zeta.
  destruct (gz_ext (effective_output args)),
    (writable (effective_output args)) eqn:Hw;
    do 2 eexists; (split; [reflexivity |]); simpl;
    rewrite opened_paths_app; simpl;
    (split; [reflexivity |]);
    rewrite ?lookup_insert_eq;
    (split; [by rewrite ?lookup_insert_ne |]);
    (split; [intros other Ho; by rewrite ?lookup_insert_ne | done]).
Qed.

(** C5 (amended). When encoding, an output path with a compressed-container
    extension receives the compressed backup; any other output path except
    [output.json] receives the raw bytes; the output path [output.json] is
    replaced by [encoded_backup.tachibk], which receives the compressed
    backup. When decoding, the input is decompressed exactly when its path
    has one of the two extensions: with the extension the bytes returned
    are the decompressed content, without it they are the content of
    [extracted_tachibk] as it is stored, whatever that content is. *)
Theorem framing_follows_extension args message input w :
  (gz_ext (output args) = true ->
   writable (output args) = true ->
   exists w',
     write_backup args message w = (Return tt, w') /\
     files w' !! output args = Some (compress message)) /\
  (gz_ext (output args) = false ->
   output args <> "output.json" ->
   writable (output args) = true ->
   exists w',
     write_backup args message w = (Return tt, w') /\
     files w' !! output args = Some message) /\
  (output args = "output.json" ->
   writable "encoded_backup.tachibk" = true ->
   exists w',
     write_backup args message w = (Return tt, w') /\
     files w' !! "encoded_backup.tachibk" = Some (compress message) /\
     files w' !! "output.json" = files w !! "output.json") /\
  (gz_ext input = true ->
   forall content,
     files w !! input = Some content ->
     writable "extracted_tachibk" = true ->
     (read_backup input w).1 =
       match decompress content with
       | inr data => Return data
       | inl e => Raise e
       end) /\
  (gz_ext input = false ->
   forall content,
     files w !! "extracted_tachibk" = Some content ->
     (read_backup input w).1 = Return content).
Proof.
  repeat split.
  - intros Hg Hw. pose proof (gz_ext_not_output_json _ Hg) as Hne%String.eqb_neq.
    rewrite write_backup_run. cbv zeta. unfold effective_output.
    rewrite Hne, Hg, Hw. eexists. split; [reflexivity |]. simpl.
    by rewrite lookup_insert_eq.
  - intros Hg Hne%String.eqb_neq Hw.
    rewrite write_backup_run. cbv zeta. unfold effective_output.
    rewrite Hne, Hg, Hw. eexists. split; [reflexivity |]. simpl.
    by rewrite lookup_insert_eq.
  - intros Ho Hw.
    rewrite write_backup_run. cbv zeta. unfold effective_output.
    rewrite Ho. simpl. change (gz_ext "encoded_backup.tachibk") with true.
    cbv iota. rewrite Hw. eexists. split; [reflexivity |]. simpl.
    by rewrite lookup_insert_eq, lookup_insert_ne.
  - intros Hg content Hf Hw. rewrite (read_backup_gz _ _ Hg). cbv zeta.
    rewrite Hf, Hw. by destruct (decompress content).
  - intros Hg content Hf. by rewrite (read_backup_plain _ _ Hg), Hf.
Qed.

End Facts.

(** *** Runs with the toy runtime *)

(** C5, as stated, fails at the output path [output.json]: it has neither
    extension, yet no raw bytes are written there; the compressed backup
    goes to [encoded_backup.tachibk]. *)
Lemma explicit_output_json_is_compressed :
  gz_ext "output.json" = false /\
  write_backup (H := toy_runtime)
    (MkArgs (Some "edited.json") "output.json" "mihon") "payload"
    (World ∅ []) =
    (Return tt,
     World {["encoded_backup.tachibk" := "GZpayload"]}
           [GzipOpen "encoded_backup.tachibk" "wb";
            Print "Compressed backup written to encoded_backup.tachibk"]).
Proof. split; vm_compute; reflexivity. Qed.

(** C6. The claim promises a diagnostic and [exit(1)] for a malformed or
    unreadable JSON input. Both runs raise [ValueError] instead: no
    diagnostic is printed and the handlers are never reached. *)
Theorem invalid_json_raises_ValueError :
  Parse (Runtime := toy_runtime) "not json" = inl ParseError /\
  main (H := toy_runtime)
    (MkArgs (Some "edited.json") "out.tachibk" "mihon")
    (World {["edited.json" := "not json"]} []) =
    (Raise ValueError, World {["edited.json" := "not json"]} []) /\
  main (H := toy_runtime)
    (MkArgs (Some "missing.json") "out.tachibk" "mihon")
    (World ∅ []) =
    (Raise ValueError, World ∅ []).
Proof.
  split; [reflexivity |].
  split; apply (main_json_raises (H := toy_runtime)); reflexivity.
Qed.

(** Without [--input] the input path is the text [None]; on an empty file
    store the run ends as C7 says. *)
Lemma decode_without_backup_witness :
  main (H := toy_runtime) (MkArgs None "output.json" "mihon") (World ∅ []) =
    (Exit 1,
     World ∅ [Open "extracted_tachibk" "rb";
              Print "ERROR! No Backup to process."; PrintHelp]).
Proof.
  apply (decode_without_backup_exits (H := toy_runtime)
           (MkArgs None "output.json" "mihon") (World ∅ [])); reflexivity.
Defined.

(** C9 on two runs: [backup.proto.gz] is unpacked into the side file;
    [backup.bin] is not opened and the stored side file is returned. *)
Lemma read_backup_side_file_witness :
  (exists w',
     read_backup (H := toy_runtime) "backup.proto.gz"
       (World {["backup.proto.gz" := "GZpayload"]} []) = (Return "payload", w') /\
     files w' = <["extracted_tachibk" := "payload"]>
                  {["backup.proto.gz" := "GZpayload"]}) /\
  (exists out w' evs,
     read_backup (H := toy_runtime) "backup.bin"
       (World {["extracted_tachibk" := "payload"]} []) = (out, w') /\
     files w' = {["extracted_tachibk" := "payload"]} /\
     trace w' = [] ++ evs /\
     opened_paths evs = ["extracted_tachibk"] /\
     ("backup.bin" <> "extracted_tachibk" -> ~ In "backup.bin" (opened_paths evs)) /\
     forall content,
       ({["extracted_tachibk" := "payload"]} : gmap string string)
         !! "extracted_tachibk" = Some content ->
       out = Return content).
Proof.
  split.
  - exact (proj1 (read_backup_side_file (H := toy_runtime) "backup.proto.gz"
                    (World {["backup.proto.gz" := "GZpayload"]} []))
             eq_refl "GZpayload" "payload" eq_refl eq_refl eq_refl).
  - exact (proj2 (read_backup_side_file (H := toy_runtime) "backup.bin"
                    (World {["extracted_tachibk" := "payload"]} []))
             eq_refl).
Defined.

(** C5 (amended) on two runs: [b.proto.gz] receives the compressed backup,
    [raw.bin] the raw bytes. *)
Lemma framing_follows_extension_witness :
  (exists w',
     write_backup (H := toy_runtime) (MkArgs None "b.proto.gz" "mihon") "payload"
       (World ∅ []) = (Return tt, w') /\
     files w' !! "b.proto.gz" = Some "GZpayload") /\
  (exists w',
     write_backup (H := toy_runtime) (MkArgs None "raw.bin" "mihon") "payload"
       (World ∅ []) = (Return tt, w') /\
     files w' !! "raw.bin" = Some "payload").
Proof.
  split.
  - apply (framing_follows_extension (H := toy_runtime)
             (MkArgs None "b.proto.gz" "mihon") "payload" "" (World ∅ []));
      reflexivity.
  - apply (framing_follows_extension (H := toy_runtime)
             (MkArgs None "raw.bin" "mihon") "payload" "" (World ∅ []));
      [reflexivity | discriminate | reflexivity].
Defined.

End CodecFacts.

(* ===================================================================== *)
(** ** More about the scanner: errors, positions, bodies, tokens          *)
(* ===================================================================== *)

Module ScannerMore.
Import Re Scanner ReFacts ScannerFacts.

(** *** When [parse_model] raises *)

Lemma format_group o : exists text, format_val (of_group o) = inr text.
Proof. destruct o; simpl; eauto. Qed.

Lemma field_line_raises cls defs field e :
  In field (finditer PROTONUMBER_RE defs) ->
  field_line cls field = inl e <->
  startswith cls "Broken" = true /\ tag_fault (group field "number") e.
Proof.
  intros Hin. unfold field_line.
  destruct (format_group (wire_type (group field "type") (group field "list")))
    as (ty & ->).
  destruct (format_group (group field "name")) as (nm & ->).
  destruct (group field "number") as [n |] eqn:Hn.
  - destruct (annotated_tag_number _ _ _ Hin Hn) as (_ & z & Hz & Ht).
    rewrite Ht. unfold tag_fault.
    destruct (startswith cls "Broken"); cbv beta iota.
    + destruct (over_limit n) eqn:Ho.
      * split; [intros [= <-]; auto | by intros (_ & -> & _)].
      * unfold format_val, py_str. destruct (over_limit (decimal (z + 1))) eqn:Hs.
        -- split; [intros [= <-]; eauto 6 | by intros (_ & -> & _)].
        -- split; [done |]. intros (_ & _ & [? | (z' & Hz' & Hs')]); [done |].
           rewrite Hz in Hz'. injection Hz' as <-. congruence.
    + split; [done | by intros (? & _)].
  - unfold tag_number, tag_fault. destruct (startswith cls "Broken"); simpl.
    + split; [by intros [= <-] | by intros (_ & ->)].
    + split; [done | by intros (? & _)].
Qed.

Lemma field_lines_raises_inv cls defs fields e :
  (forall f, In f fields -> In f (finditer PROTONUMBER_RE defs)) ->
  field_lines cls fields = inl e ->
  startswith cls "Broken" = true /\
  exists f, In f fields /\ tag_fault (group f "number") e.
Proof.
  induction fields as [| f fields IH]; intros Hall; simpl; [done |].
  assert (Hf : In f (finditer PROTONUMBER_RE defs)) by (apply Hall; by left).
  destruct (field_line cls f) as [e1 | line] eqn:El.
  - intros [= <-]. apply (field_line_raises cls defs f e1 Hf) in El as (Hb & Hn).
    split; [done |]. exists f. split; [by left | done].
  - destruct (field_lines cls fields) as [e2 | lines]; [| done].
    intros [= <-]. destruct IH as (Hb & g & Hg & Hn); [| done |].
    + intros g Hg. apply Hall. by right.
    + split; [done |]. exists g. split; [by right | done].
Qed.

Lemma field_lines_raises cls defs fields f e :
  (forall g, In g fields -> In g (finditer PROTONUMBER_RE defs)) ->
  startswith cls "Broken" = true ->
  In f fields -> tag_fault (group f "number") e ->
  exists e', field_lines cls fields = inl e'.
Proof.
  intros Hall Hb. induction fields as [| g fields IH]; intros Hin Hn; [done |].
  simpl.
  assert (Hg : In g (finditer PROTONUMBER_RE defs)) by (apply Hall; by left).
  destruct (field_line cls g) as [e1 | line] eqn:El; [eauto |].
  destruct Hin as [-> | Hin].
  - assert (Hl : field_line cls f = inl e)
      by (by apply (field_line_raises cls defs f e Hg)).
    congruence.
  - destruct IH as (e' & ->); [| done | done | eauto].
    intros h Hh. apply Hall. by right.
Qed.

Lemma class_messages_raises_inv data classes e :
  (forall c, In c classes -> In c (finditer CLASS_RE data)) ->
  class_messages classes = inl e ->
  exists cls, In cls classes /\ faulty_broken cls e.
Proof.
  induction classes as [| c classes IH]; intros Hall; simpl; [done |].
  assert (Hc : In c (finditer CLASS_RE data)) by (apply Hall; by left).
  destruct (class_groups_present _ _ Hc) as [[name Hn] [defs Hd]].
  rewrite Hn, Hd.
  destruct (field_lines name (finditer PROTONUMBER_RE defs)) as [e1 | lines] eqn:El.
  - intros [= <-].
    apply (field_lines_raises_inv name defs) in El as (Hb & f & Hf & Hnum); [| done].
    exists c. split; [by left |]. by exists name, defs, f.
  - destruct (class_messages classes) as [e2 | more]; [| done].
    intros [= <-]. destruct IH as (cls & Hcls & Hu); [| done |].
    + intros c' Hc'. apply Hall. by right.
    + exists cls. split; [by right | done].
Qed.

Lemma class_messages_raises data classes cls e :
  (forall c, In c classes -> In c (finditer CLASS_RE data)) ->
  In cls classes -> faulty_broken cls e ->
  exists e', class_messages classes = inl e'.
Proof.
  intros Hall. induction classes as [| c classes IH]; intros Hin Hu; [done |].
  simpl.
  assert (Hc : In c (finditer CLASS_RE data)) by (apply Hall; by left).
  destruct (class_groups_present _ _ Hc) as [[name Hn] [defs Hd]].
  rewrite Hn, Hd.
  destruct (field_lines name (finditer PROTONUMBER_RE defs)) as [e1 | lines] eqn:El;
    [eauto |].
  destruct Hin as [-> | Hin].
  - destruct Hu as (name' & defs' & f & Hn' & Hd' & Hb & Hf & Hnum).
    rewrite Hn in Hn'. rewrite Hd in Hd'. injection Hn' as <-. injection Hd' as <-.
    destruct (field_lines_raises name defs _ f e (fun g Hg => Hg) Hb Hf Hnum)
      as (e' & He'). congruence.
  - destruct IH as (e' & ->); [| done | done | eauto].
    intros c' Hc'. apply Hall. by right.
Qed.

(** X1. The scanner raises on a text exactly when one of its classes has a
    name beginning with [Broken] and a recognized field whose shifted tag
    cannot be computed: a field without annotation ([TypeError], from
    [int(None)]), or an annotation number over the interpreter's digit
    limit, itself or its successor ([ValueError]). The exception raised is
    that of such a field; on every other text the scanner returns the
    message lines. *)
Theorem parse_text_raises_iff data :
  (forall e, parse_text data = inl e ->
     exists cls, In cls (finditer CLASS_RE data) /\ faulty_broken cls e) /\
  ((exists cls e, In cls (finditer CLASS_RE data) /\ faulty_broken cls e) <->
   exists e, parse_text data = inl e).
Proof.
  unfold parse_text. split; [| split].
  - intros e. by apply (class_messages_raises_inv data).
  - intros (cls & e & Hin & Hu). by apply (class_messages_raises data _ cls e).
  - intros (e & He). apply (class_messages_raises_inv data) in He as (cls & ? & ?);
      [eauto | done].
Qed.

(** Both [ValueError] cases on a class with one field: an annotation of
    4301 digits, and the annotation of 4300 nines, which [int] accepts and
    whose successor [format] cannot print. *)
Example long_annotation_raises :
  parse_text ("class BrokenA(@ProtoNumber(" +:+ long_number +:+ ") val x: Int)")
    = inl ValueError /\
  parse_text ("class BrokenA(@ProtoNumber(" +:+ nines +:+ ") val x: Int)")
    = inl ValueError /\
  parse_text ("class A(@ProtoNumber(" +:+ long_number +:+ ") val x: Int)")
    = inr ["message A {"; "  required int32 x = " +:+ long_number +:+ ";";
           "}" +:+ newline].
Proof. vm_compute. auto. Qed.

(** *** Where matches start *)

Lemma line_start_at_bol b a :
  at_bol (St b a []) -> line_start (rev b ++ a) (length b) = true.
Proof.
  intros [Hb | (c & l & Hb & Hn)]; simpl in Hb; subst b; [done |].
  simpl. rewrite <- app_assoc. simpl.
  rewrite nth_error_app2 by (rewrite length_rev; lia).
  by rewrite length_rev, Nat.sub_diag.
Qed.

Lemma skipn_cursor (b a : list ascii) : skipn (length b) (rev b ++ a) = a.
Proof.
  rewrite <- (length_rev b), skipn_app, skipn_all, Nat.sub_diag. done.
Qed.

(** X2. A class is recognized only where [class] or [data class] opens a
    line: a declaration that is indented, nested in another class or
    preceded by a modifier is not scanned. *)
Theorem class_match_position data :
  let text := list_ascii_of_string data in
  Forall (fun m =>
    line_start text (m_start m) = true /\
    (starts_with (list_ascii_of_string "class ") (skipn (m_start m) text) ||
     starts_with (list_ascii_of_string "data class ") (skipn (m_start m) text))
    = true)
  (finditer CLASS_RE data).
Proof.
  cbv zeta. apply List.Forall_forall. intros m Hin.
  apply finditer_sound in Hin as (b & a & s' & Ht & Hm & ->).
  simpl. rewrite <- Ht, skipn_cursor. unfold CLASS_RE in Hm.
  apply matches_seq_inv in Hm as (s1 & P1 & Hm).
  inversion P1 as [| | ? Hbol | | | | | | |]; subst.
  split; [by apply line_start_at_bol |].
  apply matches_seq_inv in Hm as (s2 & P2 & Hm).
  apply matches_seq_inv in Hm as (s3 & P3 & Hm).
  apply matches_lit in P3 as (Ha3 & _).
  inversion P2 as [| | | | ? ? ? ? Hd | ? ? ? ? He | | | |]; subst.
  - apply matches_lit in Hd as (Ha2 & _). simpl in Ha2. rewrite Ha2, Ha3.
    apply orb_true_iff. right. reflexivity.
  - inversion He; subst. simpl in Ha3. rewrite Ha3. reflexivity.
Qed.

(** X3. A field declaration is recognized only at the start of a line of
    the class body (the annotation, or [val]/[var] itself), or right behind
    a [data class Name(] on the same line: a second declaration on a line
    is skipped. *)
Theorem field_match_position defs :
  let text := list_ascii_of_string defs in
  Forall (fun field =>
    (line_start text (m_start field) ||
     starts_with (list_ascii_of_string "data class ") (skipn (m_start field) text))
    = true)
  (finditer PROTONUMBER_RE defs).
Proof.
  cbv zeta. apply List.Forall_forall. intros field Hin.
  apply finditer_sound in Hin as (b & a & s' & Ht & Hm & ->).
  simpl. rewrite <- Ht, skipn_cursor. unfold PROTONUMBER_RE in Hm.
  apply matches_seq_inv in Hm as (s1 & Hhead & _).
  inversion Hhead as [| | | | ? ? ? ? Hann | ? ? ? ? Hother | | | |]; subst.
  - apply annotated_shape in Hann as (Hbol & _).
    by rewrite line_start_at_bol.
  - inversion Hother as [| | | | ? ? ? ? Hdc | ? ? ? ? Hbol | | | |]; subst.
    + apply matches_seq_inv in Hdc as (s2 & Hlit & _).
      apply matches_lit in Hlit as (Ha & _). simpl in Ha. rewrite Ha.
      apply orb_true_iff. right. reflexivity.
    + inversion Hbol; subst. by rewrite line_start_at_bol.
Qed.

Example second_field_on_a_line_is_skipped :
  field_lines "Backup"
    (finditer PROTONUMBER_RE "val id: Long, val name: String") =
    inr ["  required int64 id = 1;"].
Proof. vm_compute. reflexivity. Qed.

(** *** Class bodies are balanced *)

Lemma depth_after_app l1 l2 d :
  depth_after (l1 ++ l2) d =
  match depth_after l1 d with
  | Some d' => depth_after l2 d'
  | None => None
  end.
Proof.
  revert d. induction l1 as [| c l1 IH]; intros d; cbn [depth_after app]; [done |].
  destruct (is_char "(" c); [apply IH |].
  destruct (is_char ")" c); [| apply IH].
  destruct d; [done | apply IH].
Qed.

Lemma level_nil : level [].
Proof. by intros d. Qed.

Lemma level_app l1 l2 : level l1 -> level l2 -> level (l1 ++ l2).
Proof. intros H1 H2 d. by rewrite depth_after_app, H1, H2. Qed.

Lemma level_not_paren l :
  forallb (fun c => negb (is_char ")" c || is_char "(" c)) l = true -> level l.
Proof.
  unfold level. induction l as [| c l IH]; cbn [forallb depth_after]; intros Hl d; [done |].
  apply andb_true_iff in Hl as [Hc Hl].
  apply negb_true_iff, orb_false_iff in Hc as [Hc1 Hc2].
  rewrite Hc1, Hc2. by apply IH.
Qed.

Lemma level_parens l : level l -> level ("("%char :: l ++ [")"%char]).
Proof.
  intros Hl d. change (depth_after (l ++ [")"%char]) (S d) = Some d).
  by rewrite depth_after_app, Hl.
Qed.

(** What holds of the segment of every iteration holds of the segment of
    the repetition. *)
Lemma star_segments (P : list ascii -> Prop) r :
  P [] -> (forall l1 l2, P l1 -> P l2 -> P (l1 ++ l2)) ->
  (forall s0 s', matches r s0 s' -> exists l, after s0 = l ++ after s' /\ P l) ->
  forall s0 s', matches (Star r) s0 s' -> exists l, after s0 = l ++ after s' /\ P l.
Proof.
  intros Pnil Papp Hr s0 s' Hm. remember (Star r) as r' eqn:Er.
  induction Hm as [| | | | | | r0 s0 | r0 s0 s1 s2 H1 _ _ IH2 | |]; try discriminate.
  - by exists [].
  - injection Er as ->. destruct (Hr _ _ H1) as (l1 & Ha1 & P1).
    destruct (IH2 eq_refl) as (l2 & Ha2 & P2).
    exists (l1 ++ l2). rewrite Ha1, Ha2, <- app_assoc. auto.
Qed.

Lemma not_paren_plus_level s0 s' :
  matches (Plus not_paren) s0 s' -> exists l, after s0 = l ++ after s' /\ level l.
Proof.
  intros Hm. apply matches_class_plus in Hm as (l & _ & Hl & Ha & _).
  exists l. split; [done | by apply level_not_paren].
Qed.

Lemma parens_level r s0 s' :
  (forall s1 s2, matches r s1 s2 -> exists l, after s1 = l ++ after s2 /\ level l) ->
  matches (Lit "(" +> r +> Lit ")")%re s0 s' ->
  exists l, after s0 = l ++ after s' /\ level l.
Proof.
  intros Hr Hm.
  apply matches_seq_inv in Hm as (s1 & P1 & Hm).
  apply matches_seq_inv in Hm as (s2 & P2 & P3).
  apply matches_lit in P1 as (A1 & _). apply matches_lit in P3 as (A3 & _).
  destruct (Hr _ _ P2) as (l & A2 & Hl).
  exists ("("%char :: l ++ [")"%char]). split; [| by apply level_parens].
  rewrite A1, A2, A3. simpl. by rewrite <- app_assoc.
Qed.

Lemma defs_body_level s0 s' :
  matches defs_body s0 s' -> exists l, after s0 = l ++ after s' /\ level l.
Proof.
  unfold defs_body.
  apply star_segments; [apply level_nil | apply level_app |].
  intros s1 s2 Hm.
  inversion Hm as [| | | | ? ? ? ? Hp | ? ? ? ? Hn | | | |]; subst;
    [by apply not_paren_plus_level |].
  eapply parens_level; [| exact Hn].
  apply star_segments; [apply level_nil | apply level_app |].
  intros s3 s4 Hm2.
  inversion Hm2 as [| | | | ? ? ? ? Hp | ? ? ? ? Hn2 | | | |]; subst;
    [by apply not_paren_plus_level |].
  eapply parens_level; [| exact Hn2].
  intros s5 s6 Hm3. apply matches_class_star in Hm3 as (l & Hl & Ha & _).
  exists l. split; [done | by apply level_not_paren].
Qed.

Lemma string_of_app l1 l2 :
  string_of_list_ascii (l1 ++ l2) = string_of_list_ascii l1 +:+ string_of_list_ascii l2.
Proof. induction l1 as [| c l1 IH]; simpl; by rewrite ?IH. Qed.

(** X4. The text of every recognized class is [class Name(], with [data]
    before it or not, then the body handed to the field scanner, then a
    closing parenthesis; and the body is balanced, counting every
    parenthesis character, also one inside a string literal or a comment.
    The parenthesis that ends the match is thus the counting partner of
    the one that opens the body, which need not be the one that closes
    the class header in Kotlin's reading. *)
Theorem class_body_balanced data :
  Forall (fun cls =>
    exists kw name defs,
      (kw = "" \/ kw = "data ") /\
      group cls "name" = Some name /\
      group cls "defs" = Some defs /\
      string_of_list_ascii
        (substring (m_start cls) (m_end cls) (list_ascii_of_string data)) =
        kw +:+ "class " +:+ name +:+ "(" +:+ defs +:+ ")" /\
      balanced defs = true)
  (finditer CLASS_RE data).
Proof.
  apply List.Forall_forall. intros cls Hin.
  apply finditer_sound in Hin as (b & a & s' & Ht & Hm & ->).
  pose proof (matches_segment _ _ _ Hm) as (L & HaL & HbL).
  unfold CLASS_RE in Hm.
  apply matches_seq_inv in Hm as (s1 & P1 & Hm). apply matches_text in P1 as T1.
  apply matches_seq_inv in Hm as (s2 & P2 & Hm). apply matches_text in P2 as T2.
  apply matches_seq_inv in Hm as (s3 & P3 & Hm). apply matches_text in P3 as T3.
  apply matches_seq_inv in Hm as (s4 & P4 & Hm). apply matches_text in P4 as T4.
  apply matches_seq_inv in Hm as (s5 & P5 & Hm). apply matches_text in P5 as T5.
  apply matches_seq_inv in Hm as (s6 & P6 & P7).
  assert (X3 : text_of s3 = list_ascii_of_string data).
  { rewrite T3, T2, T1. unfold text_of. by simpl. }
  assert (X5 : text_of s5 = list_ascii_of_string data) by (by rewrite T5, T4, X3).
  inversion P1 as [| | ? Hbol | | | | | | |]; subst.
  assert (Hkw : exists kw, (kw = "" \/ kw = "data ") /\
                  after (St b a []) = list_ascii_of_string kw ++ after s2).
  { inversion P2 as [| | | | ? ? ? ? Hd | ? ? ? ? He | | | |]; subst.
    - apply matches_lit in Hd as (Hd & _). exists "data ". split; [by right | done].
    - inversion He; subst. exists "". split; [by left | done]. }
  destruct Hkw as (kw & Hkw & A2).
  apply matches_lit in P3 as (A3 & _ & C3).
  apply matches_lit in P5 as (A5 & _ & C5).
  apply matches_lit in P7 as (A7 & _ & C7).
  inversion P4 as [| | | | | | | | | ? ? ? sn Hname]; subst.
  inversion P6 as [| | | | | | | | | ? ? ? sd Hbody]; subst.
  apply matches_class_plus in Hname as (ln & _ & _ & An & Bn & _).
  destruct (defs_body_level _ _ Hbody) as (ld & Ad & Hl).
  destruct (matches_segment _ _ _ Hbody) as (ld' & Ad' & Bd').
  assert (ld' = ld) as -> by (rewrite Ad in Ad'; by apply app_inv_tail in Ad').
  cbn [after set_cap] in *.
  exists kw, (string_of_list_ascii ln), (string_of_list_ascii ld).
  split; [done |]. unfold group. cbn [m_caps m_string m_start m_end].
  assert (Hn : lookup_cap "name" (caps s') = Some (pos s3, pos sn)).
  { rewrite C7. cbn [caps set_cap lookup_cap].
    change (String.eqb "defs" "name") with false. cbv iota.
    rewrite (matches_caps_other "name" _ _ _ Hbody eq_refl), C5. reflexivity. }
  assert (Hd : lookup_cap "defs" (caps s') = Some (pos s5, pos sd)).
  { rewrite C7. reflexivity. }
  rewrite Hn, Hd.
  split; [| split; [| split]].
  - f_equal. f_equal. rewrite <- X3. by apply segment_substring.
  - f_equal. f_equal. rewrite <- X5. exact (segment_substring _ _ _ Ad Bd').
  - assert (HL : L = list_ascii_of_string kw ++ list_ascii_of_string "class " ++ ln ++
                     "("%char :: ld ++ [")"%char]).
    { apply (app_inv_tail (after s')).
      rewrite <- HaL, A2, A3, An, A5, Ad, A7. rewrite <- !app_assoc. simpl.
      by rewrite <- app_assoc. }
    rewrite <- Ht.
    change (substring (length b) (pos s') (rev b ++ a))
      with (substring (pos (St b a [])) (pos s') (text_of (St b a []))).
    rewrite (segment_substring (St b a []) s' L HaL HbL), HL.
    rewrite !string_of_app, !string_of_list_ascii_of_string. simpl.
    by rewrite string_of_app.
  - unfold balanced. by rewrite list_ascii_of_string_of_list_ascii, (Hl 0%nat).
Qed.

(** A parenthesis inside a string literal is counted: the header is taken
    to end further down, and a property declared behind the header is
    emitted as a field of the class. *)
Example literal_parenthesis_is_counted :
  parse_text literal_parenthesis =
    inr ["message A {"; "  optional string x = 1;"; "  required int32 y = 1;";
         "}" +:+ newline].
Proof. vm_compute. reflexivity. Qed.

(** *** The layout of the output *)

Lemma prefix_app p t : String.prefix p (p +:+ t) = true.
Proof.
  induction p as [| a p IH]; simpl; [by destruct t |].
  by destruct (ascii_dec a a).
Qed.

Lemma field_lines_no_header cls fields lines :
  field_lines cls fields = inr lines ->
  List.filter (String.prefix "message ") lines = [].
Proof.
  revert lines. induction fields as [| f fields IH]; intros lines; simpl.
  - by intros [= <-].
  - unfold field_line at 1.
    destruct (tag_number cls (group f "number")) as [e | number]; [done |].
    destruct (format_group (wire_type (group f "type") (group f "list")))
      as (ty & ->).
    destruct (format_group (group f "name")) as (nm & ->).
    destruct (format_val number) as [e | num]; [done |].
    destruct (field_lines cls fields) as [e | rest]; [done |].
    intros [= <-]. simpl. by apply IH.
Qed.

(** X5. When the scanner returns, its output has one [message Name {]
    header per recognized class, in the order of the classes in the text;
    no field line and no closing line reads as a header. *)
Theorem parse_text_headers data lines :
  parse_text data = inr lines ->
  List.filter (String.prefix "message ") lines =
  map (fun cls => "message " +:+ default "" (group cls "name") +:+ " {")
      (finditer CLASS_RE data).
Proof.
  unfold parse_text. generalize (finditer CLASS_RE data) as classes.
  intros classes. revert lines.
  induction classes as [| c classes IH]; intros lines; simpl.
  - by intros [= <-].
  - destruct (group c "name") as [name |]; [| done].
    destruct (group c "defs") as [defs |]; [| done].
    destruct (field_lines name (finditer PROTONUMBER_RE defs)) as [e | fl] eqn:El; [done |].
    destruct (class_messages classes) as [e | more]; [done |].
    intros [= <-]. cbn [List.filter].
    rewrite (prefix_app "message " (name +:+ " {")). f_equal.
    rewrite List.filter_app, (field_lines_no_header _ _ _ El). simpl.
    by apply IH.
Qed.

(** On [sample_model] the two headers are those of its two classes. *)
Lemma parse_text_headers_witness :
  List.filter (String.prefix "message ")
    ["message BackupManga {";
     "  required int64 source = 1;";
     "  optional string title = 3;";
     "  repeated string genre = 4;";
     "  optional bytes value = 5;";
     "  repeated int64 tags = 6;";
     "  required BackupChapter chapter = 7;";
     "}" +:+ newline;
     "message BrokenBackupHistory {";
     "  required string url = 1;";
     "}" +:+ newline] =
  map (fun cls => "message " +:+ default "" (group cls "name") +:+ " {")
      (finditer CLASS_RE sample_model).
Proof.
  apply (parse_text_headers sample_model). vm_compute. reflexivity.
Defined.

(** *** The tokens of a field *)

Lemma group_plus_class g p s0 s2 :
  matches (Group g (Plus (Class p))) s0 s2 ->
  exists l sp,
    l <> [] /\ forallb p l = true /\
    lookup_cap g (caps s2) = Some sp /\
    substring sp.1 sp.2 (text_of s0) = l.
Proof.
  intros Hm. inversion Hm as [| | | | | | | | | ? ? ? s1 Hplus]; subst.
  apply matches_class_plus in Hplus as (l & Hne & Hl & Ha & Hb & _).
  exists l, (pos s0, pos s1). simpl. rewrite String.eqb_refl.
  repeat split; try done. by apply segment_substring.
Qed.

Lemma token_string l :
  l <> [] -> forallb is_word l = true -> identifier (string_of_list_ascii l).
Proof.
  intros Hne Hl. split; [by destruct l |].
  by rewrite list_ascii_of_string_of_list_ascii.
Qed.

(** X6. In every recognized field declaration the name, and the type or
    collection element type, are non-empty strings of word characters, as
    Python's [\w] classifies the code points below 256 (the underscore and
    the alphanumeric characters, accented letters included): a field line
    never shows an empty or missing token, and a qualified or generic type
    is cut at its first identifier. *)
Theorem field_tokens_are_identifiers defs :
  Forall (fun field =>
    (exists n, group field "name" = Some n /\ identifier n) /\
    (forall t, group field "type" = Some t -> identifier t) /\
    (forall e, group field "list" = Some e -> identifier e))
  (finditer PROTONUMBER_RE defs).
Proof.
  apply List.Forall_forall. intros field Hin.
  apply finditer_sound in Hin as (b & a & s' & Ht & Hm & ->).
  unfold PROTONUMBER_RE in Hm.
  apply matches_seq_inv in Hm as (s1 & P1 & Hm). apply matches_text in P1 as T1.
  apply matches_seq_inv in Hm as (s2 & P2 & Hm). apply matches_text in P2 as T2.
  apply matches_seq_inv in Hm as (s3 & P3 & Hm). apply matches_text in P3 as T3.
  apply matches_seq_inv in Hm as (s4 & P4 & Hm). apply matches_text in P4 as T4.
  apply matches_seq_inv in Hm as (s5 & P5 & Hm). apply matches_text in P5 as T5.
  apply matches_seq_inv in Hm as (s6 & P6 & Hm). apply matches_text in P6 as T6.
  apply matches_seq_inv in Hm as (s7 & P7 & Hm). apply matches_text in P7 as T7.
  apply matches_seq_inv in Hm as (s8 & Hty & Hopt).
  assert (X4 : text_of s4 = list_ascii_of_string defs) by (by rewrite T4, T3, T2, T1).
  assert (X7 : text_of s7 = list_ascii_of_string defs) by (by rewrite T7, T6, T5, X4).
  unfold group. cbn [m_caps m_string]. split; [| split].
  - rewrite (matches_caps_other "name" _ _ _ Hopt eq_refl),
      (matches_caps_other "name" _ _ _ Hty eq_refl),
      (matches_caps_other "name" _ _ _ P7 eq_refl),
      (matches_caps_other "name" _ _ _ P6 eq_refl).
    apply group_plus_class in P5 as (l & [x y] & Hne & Hl & Hc & Hs).
    rewrite Hc. eexists. split; [reflexivity |]. simpl in Hs.
    rewrite <- X4, Hs. by apply token_string.
  - rewrite (matches_caps_other "type" _ _ _ Hopt eq_refl).
    unfold declared_type in Hty.
    inversion Hty as [| | | | ? ? ? ? Hcoll | ? ? ? ? Hplain | | | |]; subst.
    + rewrite (matches_caps_other "type" _ _ _ Hcoll eq_refl),
        (matches_caps_other "type" _ _ _ P7 eq_refl),
        (matches_caps_other "type" _ _ _ P6 eq_refl),
        (matches_caps_other "type" _ _ _ P5 eq_refl),
        (matches_caps_other "type" _ _ _ P4 eq_refl),
        (matches_caps_other "type" _ _ _ P3 eq_refl),
        (matches_caps_other "type" _ _ _ P2 eq_refl),
        (matches_caps_other "type" _ _ _ P1 eq_refl). done.
    + apply group_plus_class in Hplain as (l & [x y] & Hne & Hl & Hc & Hs).
      rewrite Hc. intros t [= <-]. simpl in Hs. rewrite <- X7, Hs. by apply token_string.
  - rewrite (matches_caps_other "list" _ _ _ Hopt eq_refl).
    unfold declared_type in Hty.
    inversion Hty as [| | | | ? ? ? ? Hcoll | ? ? ? ? Hplain | | | |]; subst.
    + apply matches_seq_inv in Hcoll as (sa & Q1 & Hcoll). apply matches_text in Q1 as U1.
      apply matches_seq_inv in Hcoll as (sb & Q2 & Hcoll). apply matches_text in Q2 as U2.
      apply matches_seq_inv in Hcoll as (sc & Q3 & Q4).
      rewrite (matches_caps_other "list" _ _ _ Q4 eq_refl).
      apply group_plus_class in Q3 as (l & [x y] & Hne & Hl & Hc & Hs).
      rewrite Hc. intros t [= <-]. simpl in Hs.
      rewrite <- X7, <- U1, <- U2, Hs. by apply token_string.
    + rewrite (matches_caps_other "list" _ _ _ Hplain eq_refl),
        (matches_caps_other "list" _ _ _ P7 eq_refl),
        (matches_caps_other "list" _ _ _ P6 eq_refl),
        (matches_caps_other "list" _ _ _ P5 eq_refl),
        (matches_caps_other "list" _ _ _ P4 eq_refl),
        (matches_caps_other "list" _ _ _ P3 eq_refl),
        (matches_caps_other "list" _ _ _ P2 eq_refl),
        (matches_caps_other "list" _ _ _ P1 eq_refl). done.
Qed.

Example accented_name_is_recognized :
  field_lines "Backup" (finditer PROTONUMBER_RE accented_name) =
    inr ["  required int32 gr" +:+ String "246" (String "223" "e = 1;")].
Proof. vm_compute. reflexivity. Qed.

Example generic_type_is_cut :
  field_lines "Backup"
    (finditer PROTONUMBER_RE "val extras: Map<String, Int>") =
    inr ["  required Map extras = 1;"].
Proof. vm_compute. reflexivity. Qed.

End ScannerMore.

(* ===================================================================== *)
(** ** More about the codec: failures, the side file, the frame           *)
(* ===================================================================== *)

Module CodecMore.
Import Codec CodecFacts.

(** *** Suffixes *)

Lemma substring_whole t : String.substring 0 (String.length t) t = t.
Proof. induction t as [| c t IH]; simpl; by rewrite ?IH. Qed.

Lemma substring_suffix p : forall n t,
  (n + String.length p = String.length t)%nat ->
  String.substring n (String.length p) t = p ->
  exists pre, t = pre +:+ p.
Proof.
  induction n as [| n IH]; intros t Hlen Hsub.
  - exists "". simpl in *. rewrite Hlen in Hsub. by rewrite substring_whole in Hsub.
  - destruct t as [| c t]; [simpl in Hlen; lia |]. simpl in *.
    destruct (IH t) as (pre & ->); [lia | done |]. by exists (String c pre).
Qed.

Lemma endswith_suffix t p : endswith t p = true -> exists pre, t = pre +:+ p.
Proof.
  unfold endswith. intros [Hlen Heq]%andb_true_iff.
  apply Nat.leb_le in Hlen. apply String.eqb_eq in Heq.
  apply (substring_suffix p (String.length t - String.length p)); [lia | done].
Qed.

Lemma rev_string_app a b :
  rev (list_ascii_of_string (a +:+ b)) =
  rev (list_ascii_of_string b) ++ rev (list_ascii_of_string a).
Proof.
  induction a as [| c a IH]; simpl; [by rewrite app_nil_r |].
  by rewrite IH, app_assoc.
Qed.

(** A path with a compressed-container extension does not end in [.json]:
    it is always decoded. *)
Lemma gz_ext_not_json path : gz_ext path = true -> endswith path ".json" = false.
Proof.
  intros Hg. destruct (endswith path ".json") eqn:Hj; [exfalso | done].
  apply endswith_suffix in Hj as (p1 & H1).
  apply (f_equal (fun t => rev (list_ascii_of_string t))) in H1.
  rewrite rev_string_app in H1.
  unfold gz_ext in Hg. apply orb_true_iff in Hg as [Hg | Hg];
    apply endswith_suffix in Hg as (p2 & H2);
    apply (f_equal (fun t => rev (list_ascii_of_string t))) in H2;
    rewrite rev_string_app in H2; rewrite H2 in H1; simpl in H1; discriminate.
Qed.

Section More.
Context `{Runtime}.

Lemma write_json_run args message w :
  write_json args message w =
    let out := output args in
    let w1 := World (files w) (trace w ++ [Open out "wt"]) in
    if writable out then
      match MessageToJson message with
      | inl e => (Raise e, World (<[out := ""]> (files w)) (trace w1))
      | inr text =>
          (Return tt,
           World (<[out := text]> (files w))
                 (trace w ++ [Open out "wt";
                              Print ("Backup decoded to " +:+ dquote +:+ out +:+ dquote)]))
      end
    else (Raise OSError, w1).
Proof.
  unfold write_json. cbv zeta. run.
  destruct (writable (output args)); simpl; [| done].
  destruct (MessageToJson message) as [e | text]; simpl; [done |].
  by rewrite lookup_insert_eq, insert_insert_eq, <- app_assoc.
Qed.

Lemma main_decode args w :
  endswith (str_input args) ".json" = false ->
  main args w =
    match read_backup (str_input args) w with
    | (Return data, w1) =>
        match ParseFromString data with
        | inr message => write_json args message w1
        | inl e => (Raise e, w1)
        end
    | (Exit c, w1) => (Exit c, w1)
    | (Raise e, w1) => (Raise e, w1)
    end.
Proof.
  intros Hj. unfold main. rewrite Hj. unfold mbind, M_bind, bind, parse_backup.
  destruct (read_backup (str_input args) w) as [[data | c | e] w1]; try done.
  destruct (ParseFromString data); done.
Qed.

(** X7. The side file caches the payload: after a compressed backup was
    read, reading with any path that has no compressed-container extension
    returns the same bytes and changes no file. *)
Theorem read_backup_cache input1 input2 w data w1 :
  gz_ext input1 = true ->
  read_backup input1 w = (Return data, w1) ->
  gz_ext input2 = false ->
  exists w2, read_backup input2 w1 = (Return data, w2) /\ files w2 = files w1.
Proof.
  intros Hg1 Hr Hg2. rewrite (read_backup_gz _ _ Hg1) in Hr. cbv zeta in Hr.
  rewrite (read_backup_plain _ _ Hg2).
  destruct (files w !! input1) as [content |]; [| done].
  destruct (decompress content) as [e | d]; [done |].
  destruct (writable "extracted_tachibk"); [| done].
  injection Hr as <- <-. simpl. rewrite lookup_insert_eq. eauto.
Qed.

(** X8. [write_json] opens the output file before the message is printed
    as JSON: when the printing raises, the exception leaves the function
    and the output file is left empty, its former content lost. *)
Theorem write_json_failure_truncates args message w e :
  writable (output args) = true ->
  MessageToJson message = inl e ->
  write_json args message w =
    (Raise e, World (<[output args := ""]> (files w))
                    (trace w ++ [Open (output args) "wt"])).
Proof. intros Hw He. rewrite write_json_run. cbv zeta. by rewrite Hw, He. Qed.

(** X9. A compressed input that is missing or cannot be decompressed makes
    the run raise ([OSError], or what [gzip] raises): unlike a missing
    side file this is not handled, no diagnostic is printed, and no file is
    written, the side file included. *)
Theorem compressed_input_failure args w :
  gz_ext (str_input args) = true ->
  (files w !! str_input args = None ->
   main args w =
     (Raise OSError,
      World (files w) (trace w ++ [GzipOpen (str_input args) "rb"]))) /\
  (forall content e,
     files w !! str_input args = Some content ->
     decompress content = inl e ->
     main args w =
       (Raise e, World (files w) (trace w ++ [GzipOpen (str_input args) "rb"]))).
Proof.
  intros Hg. pose proof (gz_ext_not_json _ Hg) as Hj. split.
  - intros Hf. rewrite (main_decode _ _ Hj), (read_backup_gz _ _ Hg). cbv zeta.
    by rewrite Hf.
  - intros content e Hf Hd. rewrite (main_decode _ _ Hj), (read_backup_gz _ _ Hg).
    cbv zeta. by rewrite Hf, Hd.
Qed.

(** X10. When the decompressed payload does not parse as a backup, the run
    raises what the parser raises; the side file already holds the payload
    and the output file has not been opened. *)
Theorem unparsable_payload_keeps_output args w content data e :
  gz_ext (str_input args) = true ->
  files w !! str_input args = Some content ->
  decompress content = inr data ->
  writable "extracted_tachibk" = true ->
  ParseFromString data = inl e ->
  main args w =
    (Raise e,
     World (<["extracted_tachibk" := data]> (files w))
           (trace w ++ [GzipOpen (str_input args) "rb";
                        Open "extracted_tachibk" "wb"])).
Proof.
  intros Hg Hf Hd Hw Hp. pose proof (gz_ext_not_json _ Hg) as Hj.
  rewrite (main_decode _ _ Hj), (read_backup_gz _ _ Hg). cbv zeta.
  by rewrite Hf, Hd, Hw, Hp.
Qed.

(** X11. Decoding a readable compressed backup that parses, to a writable
    output path: the run returns, the output file holds the JSON text of
    the decoded message, the side file holds the decompressed payload, and
    the only line printed names the output file. *)
Theorem decode_compressed_succeeds args w content data message text :
  gz_ext (str_input args) = true ->
  files w !! str_input args = Some content ->
  decompress content = inr data ->
  writable "extracted_tachibk" = true ->
  ParseFromString data = inr message ->
  MessageToJson message = inr text ->
  writable (output args) = true ->
  main args w =
    (Return tt,
     World (<[output args := text]> (<["extracted_tachibk" := data]> (files w)))
           (trace w ++ [GzipOpen (str_input args) "rb";
                        Open "extracted_tachibk" "wb";
                        Open (output args) "wt";
                        Print ("Backup decoded to " +:+ dquote +:+ output args
                               +:+ dquote)])).
Proof.
  intros Hg Hf Hd Hw Hp Hm Hwo. pose proof (gz_ext_not_json _ Hg) as Hj.
  rewrite (main_decode _ _ Hj), (read_backup_gz _ _ Hg). cbv zeta.
  rewrite Hf, Hd, Hw, Hp, write_json_run. cbv zeta. rewrite Hwo, Hm. simpl.
  by rewrite <- app_assoc.
Qed.

(** X12. The program ends through [exit] in one situation only: decoding
    an input without compressed-container extension while no side file
    exists; the status is then 1. Every other failure leaves as an
    exception. *)
Theorem main_exit_only_without_backup args w c w' :
  main args w = (Exit c, w') ->
  c = 1%Z /\
  endswith (str_input args) ".json" = false /\
  gz_ext (str_input args) = false /\
  files w !! "extracted_tachibk" = None.
Proof.
  intros Hm. destruct (endswith (str_input args) ".json") eqn:Hj.
  { by rewrite (main_json_raises _ _ Hj) in Hm. }
  rewrite (main_decode _ _ Hj) in Hm.
  assert (Hwj : forall message w1, write_json args message w1 <> (Exit c, w')).
  { intros message w1. rewrite write_json_run. cbv zeta.
    destruct (writable (output args)); [| done].
    destruct (MessageToJson message); done. }
  destruct (gz_ext (str_input args)) eqn:Hg.
  - exfalso. rewrite (read_backup_gz _ _ Hg) in Hm. cbv zeta in Hm.
    destruct (files w !! str_input args) as [content |]; [| done].
    destruct (decompress content) as [e | data]; [done |].
    destruct (writable "extracted_tachibk"); [| done].
    destruct (ParseFromString data); [done |]. by eapply Hwj.
  - rewrite (read_backup_plain _ _ Hg) in Hm.
    destruct (files w !! "extracted_tachibk") as [content |].
    + exfalso. destruct (ParseFromString content); [done |]. by eapply Hwj.
    + by injection Hm as <- _.
Qed.

(** X13. Whatever the arguments and however the run ends, the program
    changes no file other than [extracted_tachibk] and the output path. *)
Theorem main_frame args w other :
  other <> "extracted_tachibk" ->
  other <> output args ->
  files (main args w).2 !! other = files w !! other.
Proof.
  intros Ho1 Ho2. destruct (endswith (str_input args) ".json") eqn:Hj.
  { by rewrite (main_json_raises _ _ Hj). }
  rewrite (main_decode _ _ Hj).
  assert (Hwj : forall message w1,
            files (write_json args message w1).2 !! other = files w1 !! other).
  { intros message w1. rewrite write_json_run. cbv zeta.
    destruct (writable (output args)); [| done].
    destruct (MessageToJson message); simpl; by rewrite lookup_insert_ne. }
  destruct (gz_ext (str_input args)) eqn:Hg.
  - rewrite (read_backup_gz _ _ Hg). cbv zeta.
    destruct (files w !! str_input args) as [content |]; [| done].
    destruct (decompress content) as [e | data]; [done |].
    destruct (writable "extracted_tachibk"); [| done].
    destruct (ParseFromString data); [simpl; by rewrite lookup_insert_ne |].
    rewrite Hwj. simpl. by rewrite lookup_insert_ne.
  - rewrite (read_backup_plain _ _ Hg).
    destruct (files w !! "extracted_tachibk") as [content |]; [| done].
    destruct (ParseFromString content); [done |]. by rewrite Hwj.
Qed.

End More.

(** *** The properties on concrete runs *)

(** X7 on a run: [backup.tachibk] was unpacked, then [backup.bin] is read. *)
Lemma read_backup_cache_witness :
  exists w2,
    read_backup (H := toy_runtime) "backup.bin"
      (World (<["extracted_tachibk" := "payload"]> {["backup.tachibk" := "GZpayload"]})
             [GzipOpen "backup.tachibk" "rb"; Open "extracted_tachibk" "wb"])
      = (Return "payload", w2) /\
    files w2 = <["extracted_tachibk" := "payload"]> {["backup.tachibk" := "GZpayload"]}.
Proof.
  exact (read_backup_cache (H := toy_runtime) "backup.tachibk" "backup.bin"
           (World {["backup.tachibk" := "GZpayload"]} []) "payload"
           (World (<["extracted_tachibk" := "payload"]> {["backup.tachibk" := "GZpayload"]})
             [GzipOpen "backup.tachibk" "rb"; Open "extracted_tachibk" "wb"])
           eq_refl eq_refl eq_refl).
Defined.

(** X8 on a run: the former content of [out.json] is lost. *)
Lemma write_json_failure_truncates_witness :
  write_json (H := faulty_runtime) (MkArgs (Some "b.tachibk") "out.json" "mihon")
    "payload" (World {["out.json" := "precious"]} []) =
  (Raise TypeError,
   World (<["out.json" := ""]> {["out.json" := "precious"]}) [Open "out.json" "wt"]).
Proof.
  exact (write_json_failure_truncates (H := faulty_runtime)
           (MkArgs (Some "b.tachibk") "out.json" "mihon") "payload"
           (World {["out.json" := "precious"]} []) TypeError eq_refl eq_refl).
Defined.

(** X9 on a run: the compressed input does not exist. *)
Lemma compressed_input_failure_witness :
  main (H := toy_runtime) (MkArgs (Some "gone.tachibk") "output.json" "mihon")
    (World ∅ []) =
  (Raise OSError, World ∅ [GzipOpen "gone.tachibk" "rb"]).
Proof.
  exact (proj1 (compressed_input_failure (H := toy_runtime)
                  (MkArgs (Some "gone.tachibk") "output.json" "mihon")
                  (World ∅ []) eq_refl) eq_refl).
Defined.

(** X10 on a run: the payload is rejected by the parser. *)
Lemma unparsable_payload_keeps_output_witness :
  main (H := faulty_runtime) (MkArgs (Some "b.tachibk") "out.json" "mihon")
    (World {["b.tachibk" := "GZbad bytes"]} []) =
  (Raise DecodeError,
   World (<["extracted_tachibk" := "bad bytes"]> {["b.tachibk" := "GZbad bytes"]})
         [GzipOpen "b.tachibk" "rb"; Open "extracted_tachibk" "wb"]).
Proof.
  exact (unparsable_payload_keeps_output (H := faulty_runtime)
           (MkArgs (Some "b.tachibk") "out.json" "mihon")
           (World {["b.tachibk" := "GZbad bytes"]} [])
           "GZbad bytes" "bad bytes" DecodeError
           eq_refl eq_refl eq_refl eq_refl eq_refl).
Defined.

(** X11 on a run: [b.proto.gz] is decoded to [out.json]. *)
Lemma decode_compressed_succeeds_witness :
  main (H := toy_runtime) (MkArgs (Some "b.proto.gz") "out.json" "mihon")
    (World {["b.proto.gz" := "GZpayload"]} []) =
  (Return tt,
   World (<["out.json" := "{payload}"]>
            (<["extracted_tachibk" := "payload"]> {["b.proto.gz" := "GZpayload"]}))
         [GzipOpen "b.proto.gz" "rb"; Open "extracted_tachibk" "wb";
          Open "out.json" "wt";
          Print ("Backup decoded to " +:+ dquote +:+ "out.json" +:+ dquote)]).
Proof.
  exact (decode_compressed_succeeds (H := toy_runtime)
           (MkArgs (Some "b.proto.gz") "out.json" "mihon")
           (World {["b.proto.gz" := "GZpayload"]} [])
           "GZpayload" "payload" "payload" "{payload}"
           eq_refl eq_refl eq_refl eq_refl eq_refl eq_refl eq_refl).
Defined.

(** X12 on the run that exits: [backup.bin] with an empty file store. *)
Lemma main_exit_only_without_backup_witness :
  1%Z = 1%Z /\
  endswith "backup.bin" ".json" = false /\
  gz_ext "backup.bin" = false /\
  (∅ : gmap string string) !! "extracted_tachibk" = None.
Proof.
  exact (main_exit_only_without_backup (H := toy_runtime)
           (MkArgs (Some "backup.bin") "output.json" "mihon") (World ∅ []) 1%Z
           (World ∅ [Open "extracted_tachibk" "rb";
                     Print "ERROR! No Backup to process."; PrintHelp])
           eq_refl).
Defined.

(** X13 on a run: a file next to the backup keeps its content. *)
Lemma main_frame_witness :
  files (main (H := toy_runtime) (MkArgs (Some "b.tachibk") "out.json" "mihon")
           (World {["b.tachibk" := "GZpayload"; "notes.txt" := "mine"]} [])).2
    !! "notes.txt" = Some "mine".
Proof.
  exact (main_frame (H := toy_runtime)
           (MkArgs (Some "b.tachibk") "out.json" "mihon")
           (World {["b.tachibk" := "GZpayload"; "notes.txt" := "mine"]} [])
           "notes.txt" ltac:(discriminate) ltac:(discriminate)).
Defined.

End CodecMore.

(* ===================================================================== *)
(** ** Facts about the fetcher                                            *)
(* ===================================================================== *)

Module FetcherFacts.
Import Fetcher.

Section Facts.
Variable get_json : json -> fetch_error + json.

Lemma sub_files_members entries files :
  sub_files entries = inr files ->
  forall p, In p files <-> exists e, In e entries /\ file_entry e = Some p.
Proof.
  revert files. induction entries as [| e entries IH]; intros files; simpl.
  - intros [= <-] p. split; [done | by intros (? & [] & _)].
  - destruct e as [| | | | | members]; simpl; try done.
    destruct (is_str (default JNull (member "type" members)) "file") eqn:Hf.
    + destruct (sub_files entries) as [err | rest]; [done |].
      intros [= <-] p. specialize (IH rest eq_refl p). split.
      * intros [<- | Hin].
        -- exists (JObj members). split; [by left |]. simpl. by rewrite Hf.
        -- apply IH in Hin as (e & He & Hp). exists e. split; [by right | done].
      * intros (e & [<- | He] & Hp).
        -- simpl in Hp. rewrite Hf in Hp. injection Hp as <-. by left.
        -- right. apply IH. eauto.
    + intros Hs p. specialize (IH files Hs p). split.
      * intros Hin. apply IH in Hin as (e & He & Hp). exists e. split; [by right | done].
      * intros (e & [<- | He] & Hp).
        -- simpl in Hp. by rewrite Hf in Hp.
        -- apply IH. eauto.
Qed.

Lemma listed_cons_skip e entries p :
  file_entry e = None -> dir_entry e = None ->
  listed get_json (e :: entries) p <-> listed get_json entries p.
Proof.
  intros Hf Hd. unfold listed. split.
  - intros [(x & [<- | Hx] & Hp) | (d & url & sub & subs & x & [<- | Hdin] & Hdu & Hrest)].
    + congruence.
    + left. eauto.
    + congruence.
    + right. exists d, url, sub, subs, x. eauto.
  - intros [(x & Hx & Hp) | (d & url & sub & subs & x & Hdin & Hrest)].
    + left. exists x. split; [by right | done].
    + right. exists d, url, sub, subs, x. split; [by right | done].
Qed.

Lemma top_files_members entries files :
  top_files get_json entries = inr files ->
  forall p, In p files <-> listed get_json entries p.
Proof.
  revert files. induction entries as [| e entries IH]; intros files; simpl.
  - intros [= <-] p. split; [done |].
    intros [(? & [] & _) | (? & ? & ? & ? & ? & [] & _)].
  - destruct e as [| | | | | members]; simpl; try done.
    destruct (is_str (default JNull (member "type" members)) "file") eqn:Hf.
    + destruct (top_files get_json entries) as [err | rest]; [done |].
      intros [= <-] p. specialize (IH rest eq_refl p). split.
      * intros [<- | Hin].
        -- left. exists (JObj members). split; [by left |]. simpl. by rewrite Hf.
        -- apply IH in Hin as [(x & Hx & Hp) | (d & url & sub & subs & x & Hd & Hr)].
           ++ left. exists x. split; [by right | done].
           ++ right. exists d, url, sub, subs, x. split; [by right | done].
      * intros [(x & [<- | Hx] & Hp) | (d & url & sub & subs & x & [<- | Hd] & Hdu & Hr)].
        -- simpl in Hp. rewrite Hf in Hp. injection Hp as <-. by left.
        -- right. apply IH. left. eauto.
        -- simpl in Hdu. destruct (default JNull (member "type" members)) as [| | | t | |];
             try done. simpl in Hf, Hdu. apply String.eqb_eq in Hf. subst t. done.
        -- right. apply IH. right. exists d, url, sub, subs, x. eauto.
    + destruct (is_str (default JNull (member "type" members)) "dir") eqn:Hd.
      * destruct (get_json (default JNull (member "url" members))) as [err | sub] eqn:Hg;
          [done |].
        destruct (iterate sub) as [err | subs] eqn:Hi; [done |].
        destruct (sub_files subs) as [err | found] eqn:Hs; [done |].
        destruct (top_files get_json entries) as [err | rest]; [done |].
        intros [= <-] p. specialize (IH rest eq_refl p).
        pose proof (sub_files_members _ _ Hs p) as Hsub.
        rewrite in_app_iff. split.
        -- intros [Hin | Hin].
           ++ apply Hsub in Hin as (x & Hx & Hp). right.
              exists (JObj members), (default JNull (member "url" members)), sub, subs, x.
              repeat split; try done; [by left | simpl; by rewrite Hd].
           ++ apply IH in Hin as [(x & Hx & Hp) | (d & url & sub' & subs' & x & Hdin & Hr)].
              ** left. exists x. split; [by right | done].
              ** right. exists d, url, sub', subs', x. split; [by right | done].
        -- intros [(x & [<- | Hx] & Hp) |
                   (d & url & sub' & subs' & x & [<- | Hdin] & Hdu & Hgj & Hit & Hx & Hp)].
           ++ simpl in Hp. by rewrite Hf in Hp.
           ++ right. apply IH. left. eauto.
           ++ left. simpl in Hdu. rewrite Hd in Hdu. injection Hdu as <-.
              rewrite Hg in Hgj. injection Hgj as <-. rewrite Hi in Hit. injection Hit as <-.
              apply Hsub. eauto.
           ++ right. apply IH. right. exists d, url, sub', subs', x.
              repeat split; assumption.
      * intros Ht p. rewrite (IH files Ht p). symmetry.
        apply listed_cons_skip; simpl; by rewrite ?Hf, ?Hd.
Qed.

(** X14. When [fetch_schema] returns, its result holds exactly the
    (name, download url) pairs of the entries of type [file] of the models
    listing and of the listings of its entries of type [dir]: entries of
    any other type are skipped, and a directory inside a directory is not
    followed. *)
Theorem fetch_schema_members fork git entries files :
  get_json (JStr (listing_url fork)) = inr git ->
  iterate git = inr entries ->
  fetch_schema get_json fork = inr files ->
  forall p, In p files <-> listed get_json entries p.
Proof.
  intros Hg Hi. unfold fetch_schema. rewrite Hg, Hi. apply top_files_members.
Qed.

(** X15. When the listing service answers with a JSON object that has at
    least one member (its error payload, in place of the array of entries),
    the loop runs over the object's keys, and [.get] on the first key, a
    string, raises [AttributeError]: no file is returned. *)
Theorem api_error_payload_raises fork k v members :
  get_json (JStr (listing_url fork)) = inr (JObj ((k, v) :: members)) ->
  fetch_schema get_json fork = inl AttributeError.
Proof.
  intros Hg. unfold fetch_schema. rewrite Hg. simpl. done.
Qed.

End Facts.

Lemma fetch_schema_members_witness :
  In (JStr "PreferenceValue.kt", JStr "d4")
     [(JStr "Backup.kt", JStr "d1"); (JStr "PreferenceValue.kt", JStr "d4")] <->
  listed sample_web
    [entry "file" "Backup.kt" "u1" "d1"; entry "dir" "preference" "u2" "";
     entry "symlink" "link" "u3" "d3"]
    (JStr "PreferenceValue.kt", JStr "d4").
Proof.
  exact (fetch_schema_members sample_web "mihonapp/mihon"
           (JArr [entry "file" "Backup.kt" "u1" "d1";
                  entry "dir" "preference" "u2" "";
                  entry "symlink" "link" "u3" "d3"])
           [entry "file" "Backup.kt" "u1" "d1"; entry "dir" "preference" "u2" "";
            entry "symlink" "link" "u3" "d3"]
           [(JStr "Backup.kt", JStr "d1"); (JStr "PreferenceValue.kt", JStr "d4")]
           eq_refl eq_refl eq_refl
           (JStr "PreferenceValue.kt", JStr "d4")).
Defined.

Lemma api_error_payload_raises_witness :
  fetch_schema refusing_web "jobobby04/TachiyomiSY" = inl AttributeError.
Proof.
  exact (api_error_payload_raises refusing_web "jobobby04/TachiyomiSY"
           "message" (JStr "API rate limit exceeded") [] eq_refl).
Defined.

End FetcherFacts.
